(** * Push notifications: FCM dispatch service and notification formatters

    A shallow embedding of [services/fcm-service.ts] (class [FCMService]),
    [types/notification.ts] and [utils/notification-formatter.ts], with the
    Firebase messaging client kept abstract: it is a pair of operations on
    an opaque world, and every call the service makes is recorded in a
    trace together with what the client answered. *)

From stdpp Require Import base option list strings gmap.
From Equations Require Import Equations.
From Stdlib Require Import ZArith Lia.
From Stdlib Require Strings.Ascii.
Import Stdlib.Strings.Ascii.AsciiSyntax.
Delimit Scope char_scope with char.

Local Open Scope nat_scope.

(** ** JavaScript idioms used throughout the sources *)

Module js.

(** Truthiness of a string: only the empty string is falsy. *)
Definition truthy (s : string) : bool :=
  if decide (s = "") then false else true.

(** [x && { x }] under a spread, for an optional string [x]: the field is
    written only when [x] is defined and non-empty. *)
Definition spread_if (x : option string) : option string :=
  match x with
  | Some s => if truthy s then Some s else None
  | None => None
  end.

(** [x || d] for an optional string [x]. *)
Definition or_else (x : option string) (d : string) : string :=
  match x with
  | Some s => if truthy s then s else d
  | None => d
  end.

(** [xs.slice(i, j)] for in-range, increasing bounds. *)
Definition slice {A} (i j : nat) (xs : list A) : list A :=
  take (j - i) (drop i xs).

(** [xs.includes(x)] where [x] may be [undefined]. *)
Definition includes (xs : list string) (x : option string) : bool :=
  match x with
  | Some s => bool_decide (s ∈ xs)
  | None => false
  end.

End js.

(** ** types/notification.ts *)

Inductive NotificationPriority := high | normal.

Record NotificationPayload := {
  title : string;
  body : string;
  data : option (gmap string string);
  imageUrl : option string;
  sound : option string;
  badge : option Z;
  clickAction : option string;
  priority : option NotificationPriority;
}.

Record NotificationError := {
  code : string;
  message : string;
  token : option string;
}.

Record SendResult := {
  success : bool;
  messageId : option string;
  error : option NotificationError;
}.

Record BatchResult := {
  successCount : Z;
  failureCount : Z;
  results : list SendResult;
}.

Inductive OrderType := order_placed | order_delivered | order_canceled.

(** The string literal each member of the union stands for. *)
Definition OrderType_literal (t : OrderType) : string :=
  match t with
  | order_placed => "order.placed"
  | order_delivered => "order.delivered"
  | order_canceled => "order.canceled"
  end.

Record OrderNotification := {
  type : OrderType;
  orderId : string;
  orderNumber : option string;
}.

(** ** The provider's types (firebase-admin), as far as the service reads
    or writes them *)

Module admin.

Inductive AndroidPriority := high | normal.

Record Notification := {
  title : string;
  body : string;
  imageUrl : option string;
}.

Record AndroidNotification := {
  sound : string;
  clickAction : option string;
}.

Record AndroidConfig := {
  priority : AndroidPriority;
  android_notification : AndroidNotification;
}.

Record Aps := {
  badge : option Z;
  aps_sound : string;
}.

Record FcmOptions := {
  fcm_imageUrl : option string;
}.

Record ApnsConfig := {
  aps : Aps;                       (* apns.payload.aps *)
  fcmOptions : option FcmOptions;  (* apns.fcmOptions *)
}.

Record Message := {
  token : option string;
  topic : option string;
  notification : Notification;
  data : option (gmap string string);
  android : option AndroidConfig;
  apns : option ApnsConfig;
}.

(** What the client throws, or reports per message: an error-shaped
    value whose [code] and [message] may each be missing. *)
Record FirebaseError := {
  code : option string;
  message : option string;
}.

(** A caught value: [None] stands for [undefined] or [null]. *)
Definition Thrown := option FirebaseError.

(** One entry of [BatchResponse.responses]. *)
Record SendResponse := {
  success : bool;
  messageId : option string;
  error : option FirebaseError;
}.

End admin.

(** ** utils/notification-formatter.ts *)

Definition formatOrderNotification (d : OrderNotification) : NotificationPayload :=
  let ty := type d in
  let oid := orderId d in
  let onum := orderNumber d in
  let shown := js.or_else onum ("#" +:+ oid) in
  let titles (t : OrderType) :=
    match t with
    | order_placed => "✅ Order Confirmed"
    | order_delivered => "🎉 Order Delivered"
    | order_canceled => "❌ Order Canceled"
    end in
  let bodies (t : OrderType) :=
    match t with
    | order_placed => "Your order " +:+ shown +:+ " has been confirmed!"
    | order_delivered => "Your order " +:+ shown +:+ " has been delivered!"
    | order_canceled => "Your order " +:+ shown +:+ " has been canceled."
    end in
  {| title := titles ty;
     body := bodies ty;
     data := Some
       (let base : gmap string string :=
          <["orderId" := oid]> (<["type" := OrderType_literal ty]> ∅) in
        match js.spread_if onum with
        | Some n => <["orderNumber" := n]> base
        | None => base
        end);
     imageUrl := None;
     sound := None;
     badge := None;
     clickAction := Some ("/orders/" +:+ oid);
     priority := Some (match ty with order_placed => high | _ => normal end) |}.

(** ** services/fcm-service.ts: the pure parts *)

(** [parseError(error, token?)] *)
Definition parseError (err : admin.Thrown) (tok : option string) : NotificationError :=
  let c := js.or_else (err ≫= admin.code) "unknown" in
  let m := js.or_else (err ≫= admin.message) "Unknown error occurred" in
  {| code := c; message := m; token := js.spread_if tok |}.

Definition android_of (payload : NotificationPayload) : admin.AndroidConfig :=
  {| admin.priority :=
       match priority payload with
       | Some high => admin.high
       | _ => admin.normal
       end;
     admin.android_notification :=
       {| admin.sound := js.or_else (sound payload) "default";
          admin.clickAction := clickAction payload |} |}.

Definition aps_of (payload : NotificationPayload) : admin.Aps :=
  {| admin.badge := badge payload;
     admin.aps_sound := js.or_else (sound payload) "default" |}.

Definition notification_of (payload : NotificationPayload) : admin.Notification :=
  {| admin.title := title payload;
     admin.body := body payload;
     admin.imageUrl := js.spread_if (imageUrl payload) |}.

(** [buildMessage(token, payload)] *)
Definition buildMessage (tok : string) (payload : NotificationPayload) : admin.Message :=
  {| admin.token := Some tok;
     admin.topic := None;
     admin.notification := notification_of payload;
     admin.data := data payload;
     admin.android := Some (android_of payload);
     admin.apns := Some
       {| admin.aps := aps_of payload;
          admin.fcmOptions := Some
            {| admin.fcm_imageUrl := js.spread_if (imageUrl payload) |} |} |}.

(** [buildTopicMessage(topic, payload)] *)
Definition buildTopicMessage (top : string) (payload : NotificationPayload) : admin.Message :=
  {| admin.token := None;
     admin.topic := Some top;
     admin.notification := notification_of payload;
     admin.data := data payload;
     admin.android := Some (android_of payload);
     admin.apns := Some
       {| admin.aps := aps_of payload;
          admin.fcmOptions := None |} |}.

(** ** The messaging client, and the trace of the calls made to it *)

(** What [messaging.send] and [messaging.sendEach] answer: a thrown value,
    or the promised value. *)
Definition SendOutcome : Type := admin.Thrown + string.
Definition SendEachOutcome : Type := admin.Thrown + list admin.SendResponse.

Inductive Event :=
| Send (msg : admin.Message) (dry : bool) (r : SendOutcome)
| SendEach (msgs : list admin.Message) (dry : bool) (r : SendEachOutcome).

(** The client is opaque: its two operations act on a world the service
    never inspects. *)
Record Messaging (World : Type) := {
  send : admin.Message → bool → World → SendOutcome * World;
  sendEach : list admin.Message → bool → World → SendEachOutcome * World;
}.
Arguments send {World}.
Arguments sendEach {World}.

Record Env (World : Type) := {
  world : World;
  trace : list Event;
}.
Arguments world {World}.
Arguments trace {World}.

(** Asynchronous methods run one after the other: a computation takes the
    environment and hands back its value with the environment it leaves. *)
Definition M (World A : Type) : Type := Env World → A * Env World.

Definition ret {World A} (a : A) : M World A := λ e, (a, e).

Definition bind {World A B} (c : M World A) (k : A → M World B) : M World B :=
  λ e, let '(a, e') := c e in k a e'.

Notation "'await' x := c 'in' k" := (bind c (λ x, k))
  (at level 10, x name, c at level 100, k at level 200).

Record FCMServiceOptions (World : Type) := {
  firebaseApp : Messaging World;    (* options.firebaseApp.messaging() *)
  options_dryRun : option bool;
}.
Arguments firebaseApp {World}.
Arguments options_dryRun {World}.

Record FCMService (World : Type) := {
  messaging : Messaging World;
  dryRun : bool;
}.
Arguments messaging {World}.
Arguments dryRun {World}.

(** The constructor: [this.dryRun = options.dryRun || false]. *)
Definition new_FCMService {World} (options : FCMServiceOptions World) : FCMService World :=
  {| messaging := firebaseApp options;
     dryRun := default false (options_dryRun options) |}.

(** FCM allows max 500 tokens per batch. *)
Definition batchSize : nat := 500.

Definition invalidTokenCodes : list string :=
  [ "messaging/invalid-registration-token";
    "messaging/registration-token-not-registered" ].

Section FCMService.
Context {World : Type}.
Implicit Types (svc : FCMService World) (payload : NotificationPayload).

(** [await this.messaging.send(message, dryRun)], with the call recorded. *)
Definition messaging_send svc (msg : admin.Message) (dry : bool) : M World SendOutcome :=
  λ e, let '(r, w) := send (messaging svc) msg dry (world e) in
       (r, {| world := w; trace := trace e ++ [Send msg dry r] |}).

(** [await this.messaging.sendEach(messages, dryRun)], with the call recorded. *)
Definition messaging_sendEach svc (msgs : list admin.Message) (dry : bool)
  : M World SendEachOutcome :=
  λ e, let '(r, w) := sendEach (messaging svc) msgs dry (world e) in
       (r, {| world := w; trace := trace e ++ [SendEach msgs dry r] |}).

Definition sendToDevice svc (tok : string) payload : M World SendResult :=
  let message := buildMessage tok payload in
  await r := messaging_send svc message (dryRun svc) in
  match r with
  | inr id => ret {| success := true; messageId := Some id; error := None |}
  | inl err =>
      ret {| success := false; messageId := None;
             error := Some (parseError err (Some tok)) |}
  end.

Definition sendToTopic svc (top : string) payload : M World SendResult :=
  let message := buildTopicMessage top payload in
  await r := messaging_send svc message (dryRun svc) in
  match r with
  | inr id => ret {| success := true; messageId := Some id; error := None |}
  | inl err =>
      ret {| success := false; messageId := None;
             error := Some (parseError err None) |}
  end.

(** The message [validateToken] sends: a token and a bare notification. *)
Definition validation_message (tok : string) : admin.Message :=
  {| admin.token := Some tok;
     admin.topic := None;
     admin.notification :=
       {| admin.title := "Test"; admin.body := "Test"; admin.imageUrl := None |};
     admin.data := None;
     admin.android := None;
     admin.apns := None |}.

Definition validateToken svc (tok : string) : M World bool :=
  await r := messaging_send svc (validation_message tok) true in
  match r with
  | inr _ => ret true
  | inl err => ret (negb (js.includes invalidTokenCodes (err ≫= admin.code)))
  end.

(** The callback of [response.responses.map] in [sendBatch]. *)
Definition of_response (tokens : list string) (index : nat) (resp : admin.SendResponse)
  : SendResult :=
  if admin.success resp then
    {| success := true; messageId := admin.messageId resp; error := None |}
  else
    {| success := false; messageId := None;
       error := Some (parseError (admin.error resp) (tokens !! index)) |}.

(** The callback of [tokens.map] in the [catch] of [sendBatch]. *)
Definition of_batch_failure (err : admin.Thrown) (tok : string) : SendResult :=
  {| success := false; messageId := None;
     error := Some (parseError err (Some tok)) |}.

(** What [sendBatch] returns once [sendEach] has answered. *)
Definition batch_results (tokens : list string) (r : SendEachOutcome) : list SendResult :=
  match r with
  | inr responses => imap (of_response tokens) responses
  | inl err => of_batch_failure err <$> tokens
  end.

Definition sendBatch svc (tokens : list string) payload : M World (list SendResult) :=
  let messages := (λ tok, buildMessage tok payload) <$> tokens in
  await r := messaging_sendEach svc messages (dryRun svc) in
  ret (batch_results tokens r).

(** The [for] loop of [sendToMultipleDevices], from index [i] on. *)
Equations? sendLoop svc (tokens : list string) payload
    (i : nat) (results : list SendResult) : M World (list SendResult)
    by wf (length tokens - i) lt :=
  sendLoop svc tokens payload i results with decide (i < length tokens) := {
    | left _ =>
        let batch := js.slice i (i + batchSize) tokens in
        await batchResults := sendBatch svc batch payload in
        sendLoop svc tokens payload (i + batchSize) (results ++ batchResults)
    | right _ => ret results }.
Proof. unfold batchSize. lia. Qed.

Definition sendToMultipleDevices svc (tokens : list string) payload : M World BatchResult :=
  if decide (length tokens = 0) then
    ret {| successCount := 0; failureCount := 0; results := [] |}
  else
    await results := sendLoop svc tokens payload 0 [] in
    let successCount := Z.of_nat (length (filter (λ r, success r = true) results)) in
    let failureCount := (Z.of_nat (length results) - successCount)%Z in
    ret {| successCount := successCount;
           failureCount := failureCount;
           results := results |}.

End FCMService.

(** ** Chunking, stated apart from the loop

    These follow the description of the batching ("consecutive chunks of
    at most 500 elements", [ceil(len / 500)] of them), not the loop; the
    loop is compared with them below. *)

(** The number of chunks, [ceil(len / 500)]: the least [n] with
    [len ≤ n * batchSize]. *)
Definition chunk_count (len : nat) : nat := (len + (batchSize - 1)) / batchSize.

(** The [k]-th chunk of [tokens]. *)
Definition chunk {A} (tokens : list A) (k : nat) : list A :=
  take batchSize (drop (k * batchSize) tokens).

Definition chunks {A} (tokens : list A) : list (list A) :=
  chunk tokens <$> seq 0 (chunk_count (length tokens)).

(** ** A run of the service, described from outside *)

Section run_definitions.
Context {World : Type} (svc : FCMService World) (payload : NotificationPayload).

(** Dispatching a list of batches one after the other. *)
Fixpoint sendBatches (cs : list (list string)) : M World (list (list SendResult)) :=
  match cs with
  | [] => ret []
  | c :: cs =>
      await rs := sendBatch svc c payload in
      await rss := sendBatches cs in
      ret (rs :: rss)
  end.

Definition batch_messages (c : list string) : list admin.Message :=
  (λ tok, buildMessage tok payload) <$> c.

(** The event one [sendBatch] leaves in the trace. *)
Definition batch_event (c : list string) (r : SendEachOutcome) : Event :=
  SendEach (batch_messages c) (dryRun svc) r.

(** [r] is something the client answered to [sendEach(msgs, dryRun)]. *)
Definition answered (c : list string) (r : SendEachOutcome) : Prop :=
  ∃ w w', sendEach (messaging svc) (batch_messages c) (dryRun svc) w = (r, w').

End run_definitions.

(** What the client itself answers when it is handed the batches one
    after the other, from world [w] on: the answers in order, and the
    world it ends in. The service is not involved. *)
Fixpoint client_answers {World} (svc : FCMService World) (payload : NotificationPayload)
    (cs : list (list string)) (w : World) : list SendEachOutcome * World :=
  match cs with
  | [] => ([], w)
  | c :: cs =>
      let '(r, w1) :=
        sendEach (messaging svc) (batch_messages payload c) (dryRun svc) w in
      let '(rs, w2) := client_answers svc payload cs w1 in
      (r :: rs, w2)
  end.

(** ** The client's contract *)

(** [sendEach] answers with one response per message submitted. *)
Definition sendEach_aligned {World} (m : Messaging World) : Prop :=
  ∀ msgs dry w responses w',
    sendEach m msgs dry w = (inr responses, w') → length responses = length msgs.

(** A response that reports success carries its message id. *)
Definition sendEach_identifies {World} (m : Messaging World) : Prop :=
  ∀ msgs dry w responses w' resp,
    sendEach m msgs dry w = (inr responses, w') →
    resp ∈ responses → admin.success resp = true → is_Some (admin.messageId resp).

(** The result made of one response, for a known recipient [tok]. *)
Definition item_of_response (tok : string) (resp : admin.SendResponse) : SendResult :=
  if admin.success resp then
    {| success := true; messageId := admin.messageId resp; error := None |}
  else
    {| success := false; messageId := None;
       error := Some (parseError (admin.error resp) (Some tok)) |}.

(** The result owed to recipient [tok], submitted as message number [j] of
    a batch that the client answered with [r]. *)
Definition item_result (tok : string) (r : SendEachOutcome) (j : nat) : option SendResult :=
  match r with
  | inl err => Some (of_batch_failure err tok)
  | inr responses =>
      item_of_response tok <$> responses !! j
  end.

(** ** Observations on messages and results *)

(** The badge and the click action a provider message carries. *)
Definition message_badge (msg : admin.Message) : option Z :=
  apns ← admin.apns msg; admin.badge (admin.aps apns).

Definition message_clickAction (msg : admin.Message) : option string :=
  android ← admin.android msg; admin.clickAction (admin.android_notification android).

(** The recipient a result's error names, if any. *)
Definition error_token (res : SendResult) : option string :=
  ne ← error res; token ne.

(** Exactly one of [messageId] and [error] is populated, and [success]
    tells which. *)
Definition exactly_one (res : SendResult) : Prop :=
  (is_Some (messageId res) ↔ success res = true) ∧
  (is_Some (error res) ↔ success res = false).

(** ** utils/notification-formatter.ts: the other two formatters *)

Module shipment.

(** [type] is the single literal ['shipment.created'] and is not read. *)
Record ShipmentNotification := {
  orderId : string;
  trackingNumber : option string;
  carrier : option string;
  estimatedDelivery : option string;
}.

End shipment.

Module returns.

Inductive ReturnType := return_created | return_approved | return_rejected.

Definition ReturnType_literal (t : ReturnType) : string :=
  match t with
  | return_created => "return.created"
  | return_approved => "return.approved"
  | return_rejected => "return.rejected"
  end.

Record ReturnNotification := {
  type : ReturnType;
  returnId : string;
  orderId : string;
}.

End returns.

Definition formatShipmentNotification (d : shipment.ShipmentNotification)
  : NotificationPayload :=
  let oid := shipment.orderId d in
  let tracking := js.spread_if (shipment.trackingNumber d) in
  let carrier := js.spread_if (shipment.carrier d) in
  let body := "Your order #" +:+ oid +:+ " has been shipped!" in
  let body :=
    match carrier, tracking with
    | Some c, Some t => body +:+ " Track your package with " +:+ c +:+ ": " +:+ t
    | None, Some t => body +:+ " Tracking: " +:+ t
    | _, None => body
    end in
  let body :=
    match js.spread_if (shipment.estimatedDelivery d) with
    | Some eta => body +:+ " Estimated delivery: " +:+ eta
    | None => body
    end in
  {| title := "📦 Order Shipped";
     body := body;
     data := Some
       (let base : gmap string string :=
          <["orderId" := oid]> (<["type" := "shipment.created"]> ∅) in
        let base :=
          match tracking with
          | Some t => <["trackingNumber" := t]> base
          | None => base
          end in
        match carrier with
        | Some c => <["carrier" := c]> base
        | None => base
        end);
     imageUrl := None;
     sound := None;
     badge := None;
     clickAction := Some ("/orders/" +:+ oid);
     priority := Some high |}.

Definition formatReturnNotification (d : returns.ReturnNotification)
  : NotificationPayload :=
  let ty := returns.type d in
  let rid := returns.returnId d in
  let oid := returns.orderId d in
  let titles (t : returns.ReturnType) :=
    match t with
    | returns.return_created => "🔄 Return Initiated"
    | returns.return_approved => "✅ Return Approved"
    | returns.return_rejected => "❌ Return Rejected"
    end in
  let bodies (t : returns.ReturnType) :=
    match t with
    | returns.return_created =>
        "Your return request for order #" +:+ oid +:+ " has been submitted."
    | returns.return_approved =>
        "Your return request for order #" +:+ oid +:+ " has been approved!"
    | returns.return_rejected =>
        "Your return request for order #" +:+ oid +:+ " was rejected."
    end in
  {| title := titles ty;
     body := bodies ty;
     data := Some
       (<["orderId" := oid]>
          (<["returnId" := rid]>
             (<["type" := returns.ReturnType_literal ty]> ∅)));
     imageUrl := None;
     sound := None;
     badge := None;
     clickAction := Some ("/returns/" +:+ rid);
     priority := Some normal |}.

(** ** Regular expressions, as the validators use them

    Only what the two patterns need: character classes, sequence, choice
    and repetition. Both patterns are anchored at both ends, so [test]
    decides whether the whole string matches. Strings are sequences of
    bytes; the classes below hold ASCII characters only, so a string with
    any other character is rejected as JavaScript rejects it. *)

Module regex.

Inductive t :=
| none                          (* matches nothing *)
| eps                           (* matches the empty string *)
| class (p : Ascii.ascii → bool)       (* [...] *)
| seq (r1 r2 : t)
| alt (r1 r2 : t)
| star (r : t).

Definition plus (r : t) : t := seq r (star r).       (* r+ *)
Definition opt (r : t) : t := alt r eps.             (* (r)? *)

(** Character classes. *)
Definition range (lo hi : Ascii.ascii) : Ascii.ascii → bool :=
  λ a, (Ascii.nat_of_ascii lo <=? Ascii.nat_of_ascii a) && (Ascii.nat_of_ascii a <=? Ascii.nat_of_ascii hi).
Definition one (c : Ascii.ascii) : Ascii.ascii → bool := λ a, Ascii.eqb a c.
Definition any_of (ps : list (Ascii.ascii → bool)) : Ascii.ascii → bool :=
  λ a, existsb (λ p, p a) ps.

(** Does [r] match the empty string? *)
Fixpoint nullable (r : t) : bool :=
  match r with
  | none => false
  | eps => true
  | class _ => false
  | seq r1 r2 => nullable r1 && nullable r2
  | alt r1 r2 => nullable r1 || nullable r2
  | star _ => true
  end.

(** What is left of [r] after reading [a]. *)
Fixpoint deriv (a : Ascii.ascii) (r : t) : t :=
  match r with
  | none => none
  | eps => none
  | class p => if p a then eps else none
  | seq r1 r2 =>
      if nullable r1 then alt (seq (deriv a r1) r2) (deriv a r2)
      else seq (deriv a r1) r2
  | alt r1 r2 => alt (deriv a r1) (deriv a r2)
  | star r1 => seq (deriv a r1) (star r1)
  end.

Fixpoint test_chars (r : t) (w : list Ascii.ascii) : bool :=
  match w with
  | [] => nullable r
  | a :: w => test_chars (deriv a r) w
  end.

(** [/^r$/.test(s)] *)
Definition test (r : t) (s : string) : bool :=
  test_chars r (String.list_ascii_of_string s).

(** The words [r] matches. *)
Inductive matches : t → list Ascii.ascii → Prop :=
| m_eps : matches eps []
| m_class p a : p a = true → matches (class p) [a]
| m_seq r1 r2 w1 w2 : matches r1 w1 → matches r2 w2 → matches (seq r1 r2) (w1 ++ w2)
| m_alt_l r1 r2 w : matches r1 w → matches (alt r1 r2) w
| m_alt_r r1 r2 w : matches r2 w → matches (alt r1 r2) w
| m_star_nil r : matches (star r) []
| m_star_app r w1 w2 :
    matches r w1 → matches (star r) w2 → matches (star r) (w1 ++ w2).

End regex.

(** ** The validators (FCM token, platform, app version) *)

(** [\d] *)
Definition digit : Ascii.ascii → bool := regex.range "0"%char "9"%char.

(** [[a-zA-Z0-9_:-]] *)
Definition token_char : Ascii.ascii → bool :=
  regex.any_of [regex.range "a"%char "z"%char; regex.range "A"%char "Z"%char; regex.range "0"%char "9"%char;
                regex.one "_"%char; regex.one ":"%char; regex.one "-"%char].

(** [[a-zA-Z0-9.-]] *)
Definition prerelease_char : Ascii.ascii → bool :=
  regex.any_of [regex.range "a"%char "z"%char; regex.range "A"%char "Z"%char; regex.range "0"%char "9"%char;
                regex.one "."%char; regex.one "-"%char].

(** [/^[a-zA-Z0-9_:-]+$/] *)
Definition validTokenRegex : regex.t := regex.plus (regex.class token_char).

(** [/^\d+\.\d+(\.\d+)?(-[a-zA-Z0-9.-]+)?$/] *)
Definition versionRegex : regex.t :=
  regex.seq (regex.plus (regex.class digit))
    (regex.seq (regex.class (regex.one "."%char))
       (regex.seq (regex.plus (regex.class digit))
          (regex.seq
             (regex.opt (regex.seq (regex.class (regex.one "."%char))
                                   (regex.plus (regex.class digit))))
             (regex.opt (regex.seq (regex.class (regex.one "-"%char))
                                   (regex.plus (regex.class prerelease_char))))))).

(** [token.length] counts UTF-16 units and [String.length] bytes; the two
    agree on any string the pattern can accept, and every other string is
    rejected whichever way it is counted. *)
Definition validateFCMToken (tok : string) : bool :=
  if negb (js.truthy tok) then false
  else if (String.length tok <? 140) || (200 <? String.length tok) then false
  else regex.test validTokenRegex tok.

Definition validatePlatform (platform : string) : bool :=
  bool_decide (platform = "ios") || bool_decide (platform = "android").

Definition validateAppVersion (version : string) : bool :=
  if negb (js.truthy version) then false
  else regex.test versionRegex version.

(** Every character of [s] satisfies [p]. *)
Definition string_all (p : Ascii.ascii → bool) (s : string) : Prop :=
  Forall (λ a, p a = true) (String.list_ascii_of_string s).

(** A non-empty run of decimal digits. *)
Definition numeral (s : string) : Prop := s ≠ "" ∧ string_all digit s.

(** ** Observations on the trace and on formatter output *)

(** The messages a recorded call submitted, and its dry-run flag. *)
Definition event_messages (ev : Event) : list admin.Message :=
  match ev with
  | Send msg _ _ => [msg]
  | SendEach msgs _ _ => msgs
  end.

Definition event_dry (ev : Event) : bool :=
  match ev with
  | Send _ dry _ => dry
  | SendEach _ dry _ => dry
  end.

(** The calls recorded between environment [e] and a later one [e']. *)
Definition new_events {World} (e e' : Env World) : list Event :=
  drop (length (trace e)) (trace e').

(** [sub] occurs somewhere in [s]. *)
Definition mentions (s sub : string) : Prop :=
  ∃ before after, s = before +:+ sub +:+ after.

(** A payload that one of the three formatters produced. *)
Definition formatted (p : NotificationPayload) : Prop :=
  (∃ d, p = formatShipmentNotification d) ∨
  (∃ d, p = formatOrderNotification d) ∨
  (∃ d, p = formatReturnNotification d).

(** A shipment with its empty optional fields removed. *)
Definition shipment_without_empty (d : shipment.ShipmentNotification)
  : shipment.ShipmentNotification :=
  {| shipment.orderId := shipment.orderId d;
     shipment.trackingNumber := js.spread_if (shipment.trackingNumber d);
     shipment.carrier := js.spread_if (shipment.carrier d);
     shipment.estimatedDelivery := js.spread_if (shipment.estimatedDelivery d) |}.

(** ** A scripted client and payload, for concrete runs *)

Definition network_error : admin.Thrown :=
  Some {| admin.code := Some "app/network-error";
          admin.message := Some "Network unreachable" |}.

Definition invalid_argument : admin.FirebaseError :=
  {| admin.code := Some "messaging/invalid-argument";
     admin.message := Some "The registration token is not valid" |}.

Definition scripted_response (msg : admin.Message) : admin.SendResponse :=
  if decide (admin.token msg = Some "") then
    {| admin.success := false; admin.messageId := None;
       admin.error := Some invalid_argument |}
  else
    {| admin.success := true; admin.messageId := Some "projects/shop/messages/1";
       admin.error := None |}.

(** The world counts the calls made so far. [send] rejects an empty
    token. [sendEach] is down on the second call and otherwise answers
    message by message, rejecting empty tokens. *)
Definition scripted : Messaging nat :=
  {| send := λ msg dry w,
       (if decide (admin.token msg = Some "") then inl (Some invalid_argument)
        else inr "projects/shop/messages/1", S w);
     sendEach := λ msgs dry w,
       (if decide (w = 1) then inl network_error
        else inr (scripted_response <$> msgs), S w) |}.

Definition scripted_service : FCMService nat :=
  new_FCMService {| firebaseApp := scripted; options_dryRun := None |}.

Definition fresh : Env nat := {| world := 0; trace := [] |}.

Definition promotion : NotificationPayload :=
  {| title := "Special Offer";
     body := "Get 20% off your next purchase";
     data := None;
     imageUrl := None;
     sound := None;
     badge := Some 1%Z;
     clickAction := Some "/promotions/save20";
     priority := Some high |}.

(** A client that cannot reach the provider: every call throws. *)
Definition unreachable : Messaging unit :=
  {| send := λ msg dry w, (inl network_error, w);
     sendEach := λ msgs dry w, (inl network_error, w) |}.

Definition unreachable_service : FCMService unit :=
  new_FCMService {| firebaseApp := unreachable; options_dryRun := Some true |}.

Definition nowhere : Env unit := {| world := (); trace := [] |}.

(** A well-formed registration token of 152 characters. *)
Definition sample_token : string :=
  String.concat "" (replicate 19 "fQ7:APA9").

(** Two clients that break the contract: one answers [sendEach] with no
    responses at all, the other reports successes without a message id. *)
Definition silent : Messaging unit :=
  {| send := λ msg dry w, (inr "projects/shop/messages/1", w);
     sendEach := λ msgs dry w, (inr [], w) |}.

Definition anonymous : Messaging unit :=
  {| send := λ msg dry w, (inr "projects/shop/messages/1", w);
     sendEach := λ msgs dry w,
       (inr ((λ _, {| admin.success := true; admin.messageId := None;
                      admin.error := None |}) <$> msgs), w) |}.

(* ====================================================================== *)
(** * Properties *)

(** ** Chunking *)

Section chunking.
Context {A : Type}.
Implicit Types (tokens : list A) (k i : nat).

Lemma chunk_count_ceil len n : chunk_count len ≤ n ↔ len ≤ n * batchSize.
Proof.
  unfold chunk_count, batchSize.
  pose proof (Nat.div_mod_eq (len + (500 - 1)) 500).
  pose proof (Nat.mod_upper_bound (len + (500 - 1)) 500).
  lia.
Qed.

Lemma chunk_count_lt len k : k < chunk_count len ↔ k * batchSize < len.
Proof. pose proof (chunk_count_ceil len k). lia. Qed.

Lemma length_chunk tokens k :
  length (chunk tokens k) = batchSize `min` (length tokens - k * batchSize).
Proof. unfold chunk. by rewrite length_take, length_drop. Qed.

Lemma length_chunks tokens : length (chunks tokens) = chunk_count (length tokens).
Proof. unfold chunks. by rewrite length_fmap, length_seq. Qed.

Lemma lookup_chunks tokens k :
  k < chunk_count (length tokens) → chunks tokens !! k = Some (chunk tokens k).
Proof.
  intros Hk. unfold chunks.
  by rewrite list_lookup_fmap, lookup_seq_lt.
Qed.

Lemma lookup_chunk tokens k j :
  j < batchSize → chunk tokens k !! j = tokens !! (k * batchSize + j).
Proof.
  intros Hj. unfold chunk. by rewrite lookup_take_lt, lookup_drop.
Qed.

Lemma concat_chunks_from tokens m k :
  k + m = chunk_count (length tokens) →
  concat (chunk tokens <$> seq k m) = drop (k * batchSize) tokens.
Proof.
  revert k. induction m as [|m IH]; intros k Hk; simpl.
  - symmetry. apply drop_ge. apply chunk_count_ceil. lia.
  - rewrite IH by lia. unfold chunk.
    replace (S k * batchSize) with (k * batchSize + batchSize) by lia.
    rewrite <- drop_drop. apply take_drop.
Qed.

Lemma concat_chunks tokens : concat (chunks tokens) = tokens.
Proof. unfold chunks. by rewrite concat_chunks_from. Qed.

Lemma chunks_bounded tokens :
  Forall (λ c, 0 < length c ≤ batchSize) (chunks tokens).
Proof.
  apply Forall_forall. intros c Hc.
  apply list_elem_of_fmap in Hc as (k & -> & Hk).
  apply elem_of_seq in Hk. rewrite length_chunk.
  assert (k * batchSize < length tokens) by (apply chunk_count_lt; lia).
  unfold batchSize in *. lia.
Qed.

Lemma div_batchSize_lt tokens i :
  i < length tokens → i / batchSize < chunk_count (length tokens).
Proof.
  intros Hi. apply chunk_count_lt.
  pose proof (Nat.div_mod_eq i batchSize). lia.
Qed.

End chunking.

(** ** Reading a position of a list assembled from blocks *)

Section blocks.
Context {B : Type}.

(** When every block but the last has exactly [n] elements and the last
    one at most [n], position [i] of the concatenation lies in block
    [i / n], at offset [i mod n]. *)
Lemma lookup_concat_blocks (n : nat) (rss : list (list B)) (i : nat) :
  0 < n →
  (∀ j rs, rss !! j = Some rs → length rs ≤ n) →
  (∀ j rs, rss !! j = Some rs → S j < length rss → length rs = n) →
  concat rss !! i = rss !! (i / n) ≫= (.!! (i mod n)).
Proof.
  intros Hn. revert i. induction rss as [|rs rss IH]; intros i Hle Hfull; [done|].
  assert (length rs ≤ n) as Hrs by (by apply (Hle 0)).
  assert (rss ≠ [] → length rs = n) as Hrs'.
  { intros Hne. apply (Hfull 0); [done|]. destruct rss; simpl; [done|lia]. }
  simpl. destruct (decide (i < n)) as [Hi|Hi].
  - rewrite Nat.div_small, Nat.mod_small by done. simpl.
    destruct (decide (i < length rs)) as [Hi'|Hi'].
    + by apply lookup_app_l.
    + destruct rss as [|rs' rss]; [by rewrite app_nil_r|].
      specialize (Hrs' ltac:(done)). lia.
  - assert (i / n = S ((i - n) / n) ∧ i mod n = (i - n) mod n) as [-> ->].
    { replace i with ((i - n) + 1 * n) at 1 3 by lia.
      rewrite Nat.div_add, Nat.Div0.mod_add by lia. lia. }
    simpl. rewrite <- IH.
    + destruct rss as [|rs' rss].
      * simpl. rewrite app_nil_r. apply lookup_ge_None_2. lia.
      * specialize (Hrs' ltac:(done)). rewrite lookup_app_r by lia.
        by rewrite Hrs'.
    + intros j rs'. apply (Hle (S j)).
    + intros j rs' Hj Hlt. apply (Hfull (S j)); [done|simpl; lia].
Qed.

Lemma length_concat_Forall2 {C} (cs : list (list C)) (rss : list (list B)) :
  Forall2 (λ c rs, length rs = length c) cs rss →
  length (concat rss) = length (concat cs).
Proof.
  induction 1 as [|c rs cs rss Hlen _ IH]; [done|].
  simpl. rewrite !length_app. lia.
Qed.

End blocks.

(** ** What a run of the service does *)

Section run.
Context {World : Type} (svc : FCMService World) (payload : NotificationPayload).
Implicit Types (tokens : list string) (e : Env World).


Lemma sendLoop_step tokens i results :
  sendLoop svc tokens payload i results =
    if decide (i < length tokens) then
      await batchResults := sendBatch svc (js.slice i (i + batchSize) tokens) payload in
      sendLoop svc tokens payload (i + batchSize) (results ++ batchResults)
    else ret results.
Proof. simp sendLoop. by destruct (decide (i < length tokens)). Qed.

Lemma slice_chunk tokens k :
  js.slice (k * batchSize) (k * batchSize + batchSize) tokens = chunk tokens k.
Proof. unfold js.slice, chunk. f_equal. lia. Qed.

(** The loop, entered at a chunk boundary, dispatches the remaining
    chunks in order and appends what they return. *)
Lemma sendLoop_chunks tokens m k results e :
  k + m = chunk_count (length tokens) →
  sendLoop svc tokens payload (k * batchSize) results e =
    let '(rss, e') := sendBatches svc payload (chunk tokens <$> seq k m) e in
    (results ++ concat rss, e').
Proof.
  revert k results e. induction m as [|m IH]; intros k results e Hk.
  - rewrite sendLoop_step.
    assert (¬ k * batchSize < length tokens) by (rewrite <- chunk_count_lt; lia).
    rewrite decide_False by done. simpl. unfold ret. by rewrite app_nil_r.
  - rewrite sendLoop_step.
    assert (k * batchSize < length tokens) by (rewrite <- chunk_count_lt; lia).
    rewrite decide_True by done. rewrite slice_chunk. simpl.
    replace (k * batchSize + batchSize) with (S k * batchSize) by lia.
    unfold bind. destruct (sendBatch svc (chunk tokens k) payload e) as [rs e1].
    rewrite IH by lia.
    destruct (sendBatches _ _ _ e1) as [rss e2]. simpl. by rewrite app_assoc.
Qed.

Lemma sendBatches_trace cs e :
  ∃ outs,
    Forall2 (answered svc payload) cs outs ∧
    (sendBatches svc payload cs e).1 = zip_with batch_results cs outs ∧
    trace (sendBatches svc payload cs e).2 = trace e ++ zip_with (batch_event svc payload) cs outs.
Proof.
  revert e. induction cs as [|c cs IH]; intros e.
  - exists []. simpl. by rewrite app_nil_r.
  - simpl. unfold bind at 1 3. unfold sendBatch, bind at 1 3, messaging_sendEach.
    fold (batch_messages payload c).
    destruct (sendEach _ _ _ (world e)) as [r w] eqn:Hr. unfold ret at 1 3.
    set (e1 := {| world := w; trace := _ |}).
    destruct (IH e1) as (outs & Hans & Hres & Htr).
    unfold bind, ret. destruct (sendBatches svc payload cs e1) as [rss e2]. simpl in *.
    exists (r :: outs). split_and!.
    + constructor; [by exists (world e), w|done].
    + by rewrite Hres.
    + rewrite Htr. subst e1. simpl. by rewrite <- app_assoc.
Qed.

(** The whole of [sendToMultipleDevices]: one [sendEach] per chunk, in
    order, and the pieces put end to end. *)
Lemma sendToMultipleDevices_run tokens e :
  ∃ outs,
    Forall2 (answered svc payload) (chunks tokens) outs ∧
    let br := (sendToMultipleDevices svc tokens payload e).1 in
    let e' := (sendToMultipleDevices svc tokens payload e).2 in
    results br = concat (zip_with batch_results (chunks tokens) outs) ∧
    successCount br = Z.of_nat (length (filter (λ r, success r = true) (results br))) ∧
    failureCount br = (Z.of_nat (length (results br)) - successCount br)%Z ∧
    trace e' = trace e ++ zip_with (batch_event svc payload) (chunks tokens) outs.
Proof.
  unfold sendToMultipleDevices. destruct (decide (length tokens = 0)) as [H0|H0].
  - apply nil_length_inv in H0 as ->. exists []. simpl.
    split; [constructor|]. by rewrite app_nil_r.
  - unfold bind. pose proof (sendLoop_chunks tokens (chunk_count (length tokens)) 0 [] e) as Hloop.
    simpl in Hloop. rewrite Hloop by done. fold (chunks tokens).
    destruct (sendBatches_trace (chunks tokens) e) as (outs & Hans & Hres & Htr).
    destruct (sendBatches svc payload (chunks tokens) e) as [rss e']. simpl in *.
    exists outs. by subst rss.
Qed.

End run.

(** ** Results read position by position *)

Section positions.
Context {World : Type} (svc : FCMService World) (payload : NotificationPayload).
Implicit Types (tokens c : list string) (r : SendEachOutcome).

Lemma batch_results_lookup c r j tok :
  c !! j = Some tok → batch_results c r !! j = item_result tok r j.
Proof.
  intros Hj. destruct r as [err|responses]; simpl.
  - by rewrite list_lookup_fmap, Hj.
  - rewrite list_lookup_imap. destruct (responses !! j) as [resp|]; [|done].
    simpl. unfold of_response, item_of_response. by rewrite Hj.
Qed.

Lemma batch_results_length c r :
  sendEach_aligned (messaging svc) →
  answered svc payload c r → length (batch_results c r) = length c.
Proof.
  intros Hal (w & w' & Hr). destruct r as [err|responses]; simpl.
  - by rewrite length_fmap.
  - rewrite length_imap. apply Hal in Hr. rewrite Hr.
    unfold batch_messages. by rewrite length_fmap.
Qed.

Lemma item_result_is_Some c r j tok :
  sendEach_aligned (messaging svc) →
  answered svc payload c r → c !! j = Some tok → is_Some (item_result tok r j).
Proof.
  intros Hal Hans Hj. rewrite <- (batch_results_lookup c) by done.
  apply lookup_lt_is_Some_2. rewrite batch_results_length by done.
  by eapply lookup_lt_Some.
Qed.

Lemma batch_results_aligned cs outs :
  sendEach_aligned (messaging svc) →
  Forall2 (answered svc payload) cs outs →
  Forall2 (λ c rs, length rs = length c) cs (zip_with batch_results cs outs).
Proof.
  intros Hal. induction 1 as [|c r cs outs Hr _ IH]; simpl; constructor; [|done].
  by apply batch_results_length.
Qed.

(** Position [i] of the merged results is offset [i mod 500] of what
    chunk [i / 500] returned, and that chunk holds [tokens[i]] there. *)
Lemma merged_results_lookup tokens outs i tok :
  sendEach_aligned (messaging svc) →
  Forall2 (answered svc payload) (chunks tokens) outs →
  tokens !! i = Some tok →
  ∃ r, outs !! (i / batchSize) = Some r ∧
       answered svc payload (chunk tokens (i / batchSize)) r ∧
       chunk tokens (i / batchSize) !! (i mod batchSize) = Some tok ∧
       concat (zip_with batch_results (chunks tokens) outs) !! i
         = item_result tok r (i mod batchSize).
Proof.
  intros Hal Hans Hi.
  assert (i < length tokens) as Hlt by (by eapply lookup_lt_Some).
  pose proof (div_batchSize_lt tokens i Hlt) as Hk.
  pose proof (Forall2_length _ _ _ Hans) as Hlen. rewrite length_chunks in Hlen.
  destruct (lookup_lt_is_Some_2 outs (i / batchSize)) as [r Hr]; [lia|].
  assert (i mod batchSize < batchSize) as Hmod
    by (apply Nat.mod_upper_bound; done).
  assert (chunk tokens (i / batchSize) !! (i mod batchSize) = Some tok) as Hc.
  { rewrite lookup_chunk by done. rewrite <- Hi. f_equal.
    pose proof (Nat.div_mod_eq i batchSize). lia. }
  exists r. split_and!; [done| |done|].
  { eapply Forall2_lookup_lr; [done| |done]. by apply lookup_chunks. }
  rewrite (lookup_concat_blocks batchSize).
  - rewrite lookup_zip_with, lookup_chunks, Hr by done. simpl.
    by apply batch_results_lookup.
  - unfold batchSize. lia.
  - intros j rs Hj. apply lookup_zip_with_Some in Hj as (c & o & -> & Hcj & Hoj).
    rewrite (batch_results_length c o); [|done|by eapply Forall2_lookup_lr].
    pose proof (chunks_bounded tokens) as Hb.
    rewrite Forall_lookup in Hb. apply Hb in Hcj. lia.
  - intros j rs Hj. rewrite length_zip_with_l_eq, length_chunks by (rewrite length_chunks; lia).
    intros HSj. apply lookup_zip_with_Some in Hj as (c & o & -> & Hcj & Hoj).
    rewrite (batch_results_length c o); [|done|by eapply Forall2_lookup_lr].
    rewrite lookup_chunks in Hcj by lia. injection Hcj as <-.
    rewrite length_chunk. apply chunk_count_lt in HSj. lia.
Qed.

Lemma merged_results_length tokens outs :
  sendEach_aligned (messaging svc) →
  Forall2 (answered svc payload) (chunks tokens) outs →
  length (concat (zip_with batch_results (chunks tokens) outs)) = length tokens.
Proof.
  intros Hal Hans.
  rewrite (length_concat_Forall2 (chunks tokens)) by (by apply batch_results_aligned).
  by rewrite concat_chunks.
Qed.

End positions.


(** ** The formatter *)

(** C10: an order whose [orderNumber] is the empty string is formatted as
    if it had none: the body shows ['#'] followed by the order id, and the
    data map has no [orderNumber] key. *)
Theorem formatOrderNotification_empty_orderNumber (ty : OrderType) (oid : string) :
  let given := {| type := ty; orderId := oid; orderNumber := Some "" |} in
  let absent := {| type := ty; orderId := oid; orderNumber := None |} in
  formatOrderNotification given = formatOrderNotification absent ∧
  body (formatOrderNotification given) =
    match ty with
    | order_placed => "Your order #" +:+ oid +:+ " has been confirmed!"
    | order_delivered => "Your order #" +:+ oid +:+ " has been delivered!"
    | order_canceled => "Your order #" +:+ oid +:+ " has been canceled."
    end ∧
  ∃ d : gmap string string,
    data (formatOrderNotification given) = Some d ∧
    d !! "orderNumber" = None ∧
    d !! "orderId" = Some oid ∧
    d !! "type" = Some (OrderType_literal ty).
Proof.
  simpl. split_and!.
  - done.
  - by destruct ty.
  - eexists. split; [done|]. split_and!.
    + by rewrite !lookup_insert_ne, lookup_empty.
    + by rewrite lookup_insert_eq.
    + by rewrite lookup_insert_ne, lookup_insert_eq.
Qed.

(** ** The error classifier *)

Lemma or_else_nonempty (x : option string) (d : string) :
  d ≠ "" → js.or_else x d ≠ "".
Proof.
  intros Hd. unfold js.or_else, js.truthy.
  destruct x as [s|]; [|done]. by destruct (decide (s = "")).
Qed.

Lemma or_else_fallback (x : option string) (d : string) :
  x = None ∨ x = Some "" → js.or_else x d = d.
Proof. by intros [-> | ->]. Qed.

(** C7: [parseError] is total, and whatever it is given (a missing value,
    a value without [code] or [message], or with empty ones) the error it
    returns has a non-empty code and a non-empty message, the fallbacks
    being ['unknown'] and ['Unknown error occurred']. *)
Theorem parseError_total (err : admin.Thrown) (tok : option string) :
  code (parseError err tok) ≠ "" ∧
  message (parseError err tok) ≠ "" ∧
  (err ≫= admin.code = None ∨ err ≫= admin.code = Some "" →
     code (parseError err tok) = "unknown") ∧
  (err ≫= admin.message = None ∨ err ≫= admin.message = Some "" →
     message (parseError err tok) = "Unknown error occurred") ∧
  (∀ c, err ≫= admin.code = Some c → c ≠ "" → code (parseError err tok) = c) ∧
  (∀ m, err ≫= admin.message = Some m → m ≠ "" → message (parseError err tok) = m).
Proof.
  unfold parseError. simpl. split_and!.
  - by apply or_else_nonempty.
  - by apply or_else_nonempty.
  - apply or_else_fallback.
  - apply or_else_fallback.
  - intros c -> Hc. unfold js.or_else, js.truthy. by rewrite decide_False.
  - intros m -> Hm. unfold js.or_else, js.truthy. by rewrite decide_False.
Qed.

(** ** The message builders *)

(** C5, as stated, fails: a topic message for a payload with a badge and a
    click action carries both. *)
Lemma buildTopicMessage_keeps_badge_and_clickAction :
  message_badge (buildTopicMessage "promotions" promotion) = Some 1%Z ∧
  message_clickAction (buildTopicMessage "promotions" promotion)
    = Some "/promotions/save20" ∧
  ¬ (∀ top payload,
       message_badge (buildTopicMessage top payload) = None ∧
       message_clickAction (buildTopicMessage top payload) = None).
Proof.
  split_and!; [done..|].
  intros H. by destruct (H "promotions" promotion).
Qed.

(** C5, amended: a topic message forwards the payload's badge and click
    action exactly as a device message does; what it leaves out of the
    device shape is the recipient token and the [apns.fcmOptions] block. *)
Theorem buildTopicMessage_shape (top tok : string) (payload : NotificationPayload) :
  message_badge (buildTopicMessage top payload) = badge payload ∧
  message_clickAction (buildTopicMessage top payload) = clickAction payload ∧
  message_badge (buildMessage tok payload) = badge payload ∧
  message_clickAction (buildMessage tok payload) = clickAction payload ∧
  (admin.apns (buildTopicMessage top payload) ≫= admin.fcmOptions) = None ∧
  (admin.apns (buildMessage tok payload) ≫= admin.fcmOptions)
    = Some {| admin.fcm_imageUrl := js.spread_if (imageUrl payload) |} ∧
  admin.token (buildTopicMessage top payload) = None ∧
  admin.topic (buildTopicMessage top payload) = Some top ∧
  admin.notification (buildTopicMessage top payload)
    = admin.notification (buildMessage tok payload) ∧
  admin.data (buildTopicMessage top payload) = admin.data (buildMessage tok payload) ∧
  admin.android (buildTopicMessage top payload)
    = admin.android (buildMessage tok payload) ∧
  (admin.aps <$> admin.apns (buildTopicMessage top payload))
    = (admin.aps <$> admin.apns (buildMessage tok payload)).
Proof. by split_and!. Qed.

(** ** The orchestrator *)

(** C4: on an empty list [sendToMultipleDevices] returns
    [{successCount: 0, failureCount: 0, results: []}] and leaves the
    environment as it found it: nothing is added to the trace, so neither
    [send] nor [sendEach] was called. *)
Theorem sendToMultipleDevices_empty {World} (svc : FCMService World)
    (payload : NotificationPayload) (e : Env World) :
  sendToMultipleDevices svc [] payload e
    = ({| successCount := 0; failureCount := 0; results := [] |}, e) ∧
  trace (sendToMultipleDevices svc [] payload e).2 = trace e.
Proof. done. Qed.

(** C6: [validateToken] makes exactly one [send] call, always in dry-run
    mode whatever the service's own [dryRun] flag is; it answers [false]
    exactly when that call throws an error whose code is one of the two
    invalid-token codes, and [true] on success and on any other error. *)
Theorem validateToken_verdict {World} (svc : FCMService World) (tok : string)
    (e : Env World) :
  let b := (validateToken svc tok e).1 in
  let e' := (validateToken svc tok e).2 in
  let r := (send (messaging svc) (validation_message tok) true (world e)).1 in
  trace e' = trace e ++ [Send (validation_message tok) true r] ∧
  (b = false ↔
     ∃ err c, r = inl (Some err) ∧ admin.code err = Some c ∧
       (c = "messaging/invalid-registration-token" ∨
        c = "messaging/registration-token-not-registered")) ∧
  ((∃ id, r = inr id) → b = true) ∧
  (∀ err, r = inl err →
     err ≫= admin.code ≠ Some "messaging/invalid-registration-token" →
     err ≫= admin.code ≠ Some "messaging/registration-token-not-registered" →
     b = true).
Proof.
  unfold validateToken, bind, messaging_send. simpl.
  destruct (send _ _ _ _) as [r w]. simpl.
  destruct r as [[[c m]|]|id]; simpl.
  - destruct c as [c|]; simpl.
    + unfold invalidTokenCodes. split_and!; [done| |by intros [? ?]|].
      * rewrite negb_false_iff, bool_decide_eq_true, !elem_of_cons, elem_of_nil.
        split.
        -- intros Hc. exists {| admin.code := Some c; admin.message := m |}, c.
           split_and!; [done..|]. tauto.
        -- intros (err & c' & [= <-] & [= <-] & Hc). tauto.
      * intros err [= <-] H1 H2. simpl in *.
        rewrite negb_true_iff, bool_decide_eq_false, !elem_of_cons, elem_of_nil.
        intros [->|[->|[]]]; congruence.
    + split_and!; [done| |done..].
      split; [done|]. by intros (err & c' & [= <-] & [= ] & _).
  - split_and!; [done| |done..].
    split; [done|]. by intros (err & c' & [= ] & _).
  - split_and!; [done| |done..].
    split; [done|]. by intros (err & c' & [= ] & _).
Qed.

Lemma scripted_aligned : sendEach_aligned scripted.
Proof.
  intros msgs dry w responses w' H. simpl in H.
  destruct (decide (w = 1)); [done|].
  injection H as <- _. by rewrite length_fmap.
Qed.

Lemma scripted_identifies : sendEach_identifies scripted.
Proof.
  intros msgs dry w responses w' resp H Hin Hok. simpl in H.
  destruct (decide (w = 1)); [done|].
  injection H as <- _. apply list_elem_of_fmap in Hin as (msg & -> & _).
  unfold scripted_response in *. by destruct (decide (admin.token msg = Some "")).
Qed.

(** C1: when the client answers [sendEach] with one response per message,
    [sendToMultipleDevices] returns as many results as it was given
    tokens, [successCount] counts the results with [success = true], and
    [successCount + failureCount] is the number of tokens. *)
Theorem sendToMultipleDevices_counts {World} (svc : FCMService World)
    (tokens : list string) (payload : NotificationPayload) (e : Env World) :
  sendEach_aligned (messaging svc) →
  let br := (sendToMultipleDevices svc tokens payload e).1 in
  length (results br) = length tokens ∧
  successCount br = Z.of_nat (length (filter (λ r, success r = true) (results br))) ∧
  (successCount br + failureCount br)%Z = Z.of_nat (length tokens) ∧
  (0 ≤ failureCount br)%Z.
Proof.
  intros Hal.
  destruct (sendToMultipleDevices_run svc payload tokens e)
    as (outs & Hans & Hres & Hs & Hf & _).
  cbv zeta in *.
  assert (length (results (sendToMultipleDevices svc tokens payload e).1)
          = length tokens) as Hlen.
  { rewrite Hres. by apply (merged_results_length svc payload). }
  split_and!; [done|done|lia|].
  pose proof (length_filter (λ r, success r = true)
                (results (sendToMultipleDevices svc tokens payload e).1)).
  lia.
Qed.

Lemma sendToMultipleDevices_counts_witness :
  sendEach_aligned (messaging scripted_service) ∧
  let br := (sendToMultipleDevices scripted_service ["a"; ""; "b"] promotion fresh).1 in
  length (results br) = 3 ∧
  (successCount br + failureCount br)%Z = 3%Z.
Proof.
  split; [exact scripted_aligned|].
  destruct (sendToMultipleDevices_counts scripted_service ["a"; ""; "b"] promotion fresh
              scripted_aligned) as (Hlen & _ & Hsum & _).
  split; [exact Hlen|exact Hsum].
Defined.

Lemma sendBatches_client {World} (svc : FCMService World)
    (payload : NotificationPayload) (cs : list (list string)) (e : Env World) :
  let ans := client_answers svc payload cs (world e) in
  (sendBatches svc payload cs e).1 = zip_with batch_results cs ans.1 ∧
  world (sendBatches svc payload cs e).2 = ans.2 ∧
  trace (sendBatches svc payload cs e).2
    = trace e ++ zip_with (batch_event svc payload) cs ans.1 ∧
  Forall2 (answered svc payload) cs ans.1.
Proof.
  revert e. induction cs as [|c cs IH]; intros e.
  - simpl. split_and!; [done|done|by rewrite app_nil_r|constructor].
  - simpl. unfold bind at 1 3 5. unfold sendBatch, bind at 1 3 5, messaging_sendEach.
    fold (batch_messages payload c).
    destruct (sendEach _ _ _ (world e)) as [r w] eqn:Hr. unfold ret at 1 3 5.
    set (e1 := {| world := w; trace := _ |}).
    destruct (IH e1) as (Hres & Hw & Htr & Hans). cbv zeta in *.
    change (world e1) with w in *.
    unfold bind, ret. destruct (sendBatches svc payload cs e1) as [rss e2].
    destruct (client_answers svc payload cs w) as [outs w2]. simpl in *.
    split_and!.
    + by rewrite Hres.
    + done.
    + rewrite Htr. subst e1. simpl. by rewrite <- app_assoc.
    + constructor; [by exists (world e), w|done].
Qed.

(** The run of [sendToMultipleDevices] in terms of the client: the calls
    are the client's own [sendEach] applied to the chunks in turn, from
    the world the run starts in. *)
Lemma sendToMultipleDevices_client {World} (svc : FCMService World)
    (tokens : list string) (payload : NotificationPayload) (e : Env World) :
  let ans := client_answers svc payload (chunks tokens) (world e) in
  let br := (sendToMultipleDevices svc tokens payload e).1 in
  let e' := (sendToMultipleDevices svc tokens payload e).2 in
  results br = concat (zip_with batch_results (chunks tokens) ans.1) ∧
  world e' = ans.2 ∧
  trace e' = trace e ++ zip_with (batch_event svc payload) (chunks tokens) ans.1 ∧
  Forall2 (answered svc payload) (chunks tokens) ans.1.
Proof.
  unfold sendToMultipleDevices. destruct (decide (length tokens = 0)) as [H0|H0].
  - apply nil_length_inv in H0 as ->. simpl.
    split_and!; [done|done|by rewrite app_nil_r|constructor].
  - unfold bind.
    pose proof (sendLoop_chunks svc payload tokens (chunk_count (length tokens)) 0 [] e)
      as Hloop.
    simpl in Hloop. rewrite Hloop by done. fold (chunks tokens).
    destruct (sendBatches_client svc payload (chunks tokens) e)
      as (Hres & Hw & Htr & Hans). cbv zeta in *.
    destruct (sendBatches svc payload (chunks tokens) e) as [rss e']. simpl in *.
    by subst rss.
Qed.

(** C2: when the client answers [sendEach] with one response per message,
    [sendToMultipleDevices] (on any list, so on every list of more than
    500 tokens) hands the client exactly one [sendEach] call per chunk, in
    order and nothing else: the answers recorded are the client's own
    [sendEach] applied to the messages of each chunk in turn, starting
    from the world the run began in, and the run ends in the world the
    client's last call left. The chunks are [ceil(length / 500)]
    consecutive pieces of at most 500 tokens; and the result at position
    [i] is the one built for [tokens[i]] from response [i mod 500] of the
    client's answer to call [i / 500]. *)
Theorem sendToMultipleDevices_chunking {World} (svc : FCMService World)
    (tokens : list string) (payload : NotificationPayload) (e : Env World) :
  sendEach_aligned (messaging svc) →
  let br := (sendToMultipleDevices svc tokens payload e).1 in
  let e' := (sendToMultipleDevices svc tokens payload e).2 in
  let outs := (client_answers svc payload (chunks tokens) (world e)).1 in
  length outs = length (chunks tokens) ∧
  world e' = (client_answers svc payload (chunks tokens) (world e)).2 ∧
  trace e' = trace e ++ zip_with (batch_event svc payload) (chunks tokens) outs ∧
  (∀ n, length (chunks tokens) ≤ n ↔ length tokens ≤ n * 500) ∧
  concat (chunks tokens) = tokens ∧
  Forall (λ c, 0 < length c ≤ 500) (chunks tokens) ∧
  length (results br) = length tokens ∧
  ∀ i tok, tokens !! i = Some tok →
    ∃ r res,
      outs !! (i / 500) = Some r ∧
      chunks tokens !! (i / 500) ≫= (.!! (i mod 500)) = Some tok ∧
      results br !! i = Some res ∧
      item_result tok r (i mod 500) = Some res.
Proof.
  intros Hal.
  destruct (sendToMultipleDevices_client svc tokens payload e)
    as (Hres & Hw & Htr & Hans).
  cbv zeta in *.
  set (outs := (client_answers svc payload (chunks tokens) (world e)).1) in *.
  split_and!.
  - symmetry. by eapply Forall2_length.
  - done.
  - done.
  - intros n. rewrite length_chunks. apply chunk_count_ceil.
  - apply concat_chunks.
  - apply chunks_bounded.
  - rewrite Hres. by apply (merged_results_length svc payload).
  - intros i tok Hi.
    destruct (merged_results_lookup svc payload tokens outs i tok Hal Hans Hi)
      as (r & Hr & Hansr & Hc & Hlook).
    destruct (item_result_is_Some svc payload _ r _ tok Hal Hansr Hc) as [res Hsome].
    exists r, res. fold batchSize. split_and!; [done| |by rewrite Hres, Hlook|done].
    rewrite lookup_chunks; [done|].
    apply div_batchSize_lt. by eapply lookup_lt_Some.
Qed.

Lemma sendToMultipleDevices_chunking_witness :
  let tokens := replicate 1001 "device" in
  let run := sendToMultipleDevices scripted_service tokens promotion fresh in
  let sent := {| success := true; messageId := Some "projects/shop/messages/1";
                 error := None |} in
  let lost := {| success := false; messageId := None;
                 error := Some (parseError network_error (Some "device")) |} in
  sendEach_aligned (messaging scripted_service) ∧
  500 < length tokens ∧
  length (chunks tokens) = 3 ∧
  world run.2 = 3 ∧
  trace run.2 =
    [ SendEach (batch_messages promotion (replicate 500 "device")) false
        (inr (replicate 500 (scripted_response (buildMessage "device" promotion))));
      SendEach (batch_messages promotion (replicate 500 "device")) false
        (inl network_error);
      SendEach (batch_messages promotion (replicate 1 "device")) false
        (inr (replicate 1 (scripted_response (buildMessage "device" promotion)))) ] ∧
  length (results run.1) = 1001 ∧
  results run.1 !! 499 = Some sent ∧
  results run.1 !! 500 = Some lost ∧
  results run.1 !! 999 = Some lost ∧
  results run.1 !! 1000 = Some sent.
Proof.
  split; [exact scripted_aligned|].
  split; [vm_compute; lia|].
  split; [by vm_compute|].
  destruct (sendToMultipleDevices_chunking scripted_service (replicate 1001 "device")
              promotion fresh scripted_aligned) as (_ & Hw & Htr & _ & _ & _ & Hlen & Hpos).
  split; [rewrite Hw; by vm_compute|].
  split; [rewrite Htr; by vm_compute|].
  split; [rewrite Hlen; by vm_compute|].
  split_and!.
  - destruct (Hpos 499 "device" eq_refl) as (r & res & Hr & _ & -> & Hitem).
    vm_compute in Hr. injection Hr as <-. vm_compute in Hitem. by rewrite <- Hitem.
  - destruct (Hpos 500 "device" eq_refl) as (r & res & Hr & _ & -> & Hitem).
    vm_compute in Hr. injection Hr as <-. vm_compute in Hitem. by rewrite <- Hitem.
  - destruct (Hpos 999 "device" eq_refl) as (r & res & Hr & _ & -> & Hitem).
    vm_compute in Hr. injection Hr as <-. vm_compute in Hitem. by rewrite <- Hitem.
  - destruct (Hpos 1000 "device" eq_refl) as (r & res & Hr & _ & -> & Hitem).
    vm_compute in Hr. injection Hr as <-. vm_compute in Hitem. by rewrite <- Hitem.
Defined.

(** C3: when the client answers [sendEach] with one response per message
    and the call for chunk [k] throws [err], every position of chunk [k]
    holds a failed result, all with the code classified from [err] and
    each with its own token, so none is missing; the positions of a chunk
    whose call returned hold the results made of that call's responses. *)
Theorem wholesale_failure_isolated {World} (svc : FCMService World)
    (tokens : list string) (payload : NotificationPayload) (e : Env World) :
  sendEach_aligned (messaging svc) →
  let br := (sendToMultipleDevices svc tokens payload e).1 in
  let e' := (sendToMultipleDevices svc tokens payload e).2 in
  ∃ outs : list SendEachOutcome,
    length outs = length (chunks tokens) ∧
    trace e' = trace e ++ zip_with (batch_event svc payload) (chunks tokens) outs ∧
    length (results br) = length tokens ∧
    (∀ k err, outs !! k = Some (inl err) →
       ∀ i tok, i / 500 = k → tokens !! i = Some tok →
         results br !! i =
           Some {| success := false; messageId := None;
                   error := Some
                     {| code := js.or_else (err ≫= admin.code) "unknown";
                        message := js.or_else (err ≫= admin.message)
                                     "Unknown error occurred";
                        token := js.spread_if (Some tok) |} |}) ∧
    (∀ k responses, outs !! k = Some (inr responses) →
       ∀ i tok, i / 500 = k → tokens !! i = Some tok →
         ∃ resp, responses !! (i mod 500) = Some resp ∧
                 results br !! i = Some (item_of_response tok resp)).
Proof.
  intros Hal.
  destruct (sendToMultipleDevices_run svc payload tokens e)
    as (outs & Hans & Hres & _ & _ & Htr).
  cbv zeta in *. exists outs. split_and!.
  - symmetry. by eapply Forall2_length.
  - done.
  - rewrite Hres. by apply (merged_results_length svc payload).
  - intros k err Hk i tok <- Hi.
    destruct (merged_results_lookup svc payload tokens outs i tok Hal Hans Hi)
      as (r & Hr & _ & _ & Hlook).
    pose proof (eq_trans (eq_sym Hr) Hk) as [= ->].
    by rewrite Hres, Hlook.
  - intros k responses Hk i tok <- Hi.
    destruct (merged_results_lookup svc payload tokens outs i tok Hal Hans Hi)
      as (r & Hr & Hansr & Hc & Hlook).
    pose proof (eq_trans (eq_sym Hr) Hk) as [= ->].
    destruct (item_result_is_Some svc payload _ _ _ tok Hal Hansr Hc) as [res Hsome].
    unfold item_result in Hsome. fold batchSize.
    destruct (responses !! (i mod batchSize)) as [resp|] eqn:Hresp; [|done].
    exists resp. split; [done|]. rewrite Hres, Hlook. unfold item_result. by rewrite Hresp.
Qed.

Lemma wholesale_failure_isolated_witness :
  sendEach_aligned (messaging scripted_service) ∧
  let br := (sendToMultipleDevices scripted_service (replicate 1001 "device")
               promotion fresh).1 in
  length (results br) = 1001 ∧
  (success <$> results br !! 499) = Some true ∧
  (results br !! 500 ≫= error) = Some (parseError network_error (Some "device")) ∧
  (results br !! 999 ≫= error) = Some (parseError network_error (Some "device")) ∧
  (success <$> results br !! 1000) = Some true.
Proof.
  split; [exact scripted_aligned|].
  destruct (wholesale_failure_isolated scripted_service (replicate 1001 "device")
              promotion fresh scripted_aligned) as (outs & _ & _ & Hlen & _).
  split; [exact Hlen|]. by vm_compute.
Defined.

(** ** Which errors name a recipient *)

Lemma spread_if_Some (tok : string) :
  js.spread_if (Some tok) = if decide (tok = "") then None else Some tok.
Proof. unfold js.spread_if, js.truthy. by destruct (decide (tok = "")). Qed.

(** C8, as stated, fails: a device-targeted failure for the empty token
    has no [token] field, from [sendToDevice] and as an item of
    [sendToMultipleDevices] alike. *)
Lemma empty_token_not_attached :
  (let res := (sendToDevice scripted_service "" promotion fresh).1 in
   success res = false ∧ error_token res = None) ∧
  (∃ res,
     results (sendToMultipleDevices scripted_service ["a"; ""; "b"] promotion fresh).1
       !! 1 = Some res ∧
     success res = false ∧ error_token res = None) ∧
  ¬ (∀ tok : string,
       let res := (sendToDevice scripted_service tok promotion fresh).1 in
       success res = false → error_token res = Some tok).
Proof.
  split_and!.
  - by vm_compute.
  - eexists. split; [by vm_compute|]. by vm_compute.
  - intros H. specialize (H "" eq_refl). by vm_compute in H.
Qed.

(** C8, amended: a failed [sendToTopic] returns an error without [token];
    a failed [sendToDevice], and a failed item of [sendToMultipleDevices]
    (the client answering one response per message), returns an error
    whose [token] is the recipient's when that token is not the empty
    string, and is absent when it is. *)
Theorem error_token_by_context {World} (svc : FCMService World)
    (payload : NotificationPayload) (e : Env World) :
  sendEach_aligned (messaging svc) →
  (∀ top,
     let res := (sendToTopic svc top payload e).1 in
     success res = false → ∃ ne, error res = Some ne ∧ token ne = None) ∧
  (∀ tok,
     let res := (sendToDevice svc tok payload e).1 in
     success res = false →
     ∃ ne, error res = Some ne ∧
           token ne = if decide (tok = "") then None else Some tok) ∧
  (∀ tokens i tok res,
     tokens !! i = Some tok →
     results (sendToMultipleDevices svc tokens payload e).1 !! i = Some res →
     success res = false →
     ∃ ne, error res = Some ne ∧
           token ne = if decide (tok = "") then None else Some tok).
Proof.
  intros Hal. split_and!.
  - intros top. unfold sendToTopic, bind, messaging_send. simpl.
    destruct (send _ _ _ _) as [[err|id] w]; simpl; [|done].
    intros _. by eexists.
  - intros tok. unfold sendToDevice, bind, messaging_send. simpl.
    destruct (send _ _ _ _) as [[err|id] w]; simpl; [|done].
    intros _. eexists. split; [done|]. simpl. apply spread_if_Some.
  - intros tokens i tok res Hi Hres Hfail.
    destruct (sendToMultipleDevices_run svc payload tokens e)
      as (outs & Hans & Hrs & _).
    cbv zeta in Hrs. rewrite Hrs in Hres.
    destruct (merged_results_lookup svc payload tokens outs i tok Hal Hans Hi)
      as (r & _ & _ & _ & Hlook).
    rewrite Hlook in Hres. destruct r as [err|responses]; unfold item_result in Hres.
    + injection Hres as <-. eexists. split; [done|]. simpl. apply spread_if_Some.
    + destruct (responses !! (i mod batchSize)) as [resp|]; [|done].
      injection Hres as <-. unfold item_of_response in *.
      destruct (admin.success resp); [done|].
      eexists. split; [done|]. simpl. apply spread_if_Some.
Qed.

Lemma error_token_by_context_witness :
  sendEach_aligned (messaging scripted_service) ∧
  ∃ ne, error (sendToDevice scripted_service "" promotion fresh).1 = Some ne ∧
        token ne = None.
Proof.
  split; [exact scripted_aligned|].
  destruct (error_token_by_context scripted_service promotion fresh scripted_aligned)
    as (_ & Hdev & _).
  exact (Hdev "" eq_refl).
Defined.

(** ** The shape of every result *)

Lemma exactly_one_sent (id : option string) :
  is_Some id → exactly_one {| success := true; messageId := id; error := None |}.
Proof. intros Hid. split; simpl; split; done. Qed.

Lemma exactly_one_failed (ne : NotificationError) :
  exactly_one {| success := false; messageId := None; error := Some ne |}.
Proof. split; simpl; split; done. Qed.

Lemma batch_results_exactly_one {World} (svc : FCMService World)
    (payload : NotificationPayload) (c : list string) (r : SendEachOutcome) :
  sendEach_identifies (messaging svc) →
  answered svc payload c r → Forall exactly_one (batch_results c r).
Proof.
  intros Hid (w & w' & Hr). apply Forall_forall. intros res Hin.
  destruct r as [err|responses]; simpl in Hin.
  - apply list_elem_of_fmap in Hin as (tok & -> & _). apply exactly_one_failed.
  - apply elem_of_lookup_imap in Hin as (i & resp & -> & Hi).
    unfold of_response. destruct (admin.success resp) eqn:Hok.
    + apply exactly_one_sent. eapply Hid; [done| |done].
      by eapply list_elem_of_lookup_2.
    + apply exactly_one_failed.
Qed.

Lemma Forall_merged_results {World} (svc : FCMService World)
    (payload : NotificationPayload) (P : SendResult → Prop) cs outs :
  (∀ c r, answered svc payload c r → Forall P (batch_results c r)) →
  Forall2 (answered svc payload) cs outs →
  Forall P (concat (zip_with batch_results cs outs)).
Proof.
  intros HP. induction 1 as [|c r cs outs Hr _ IH]; simpl; [constructor|].
  apply Forall_app. split; [by apply HP|done].
Qed.

(** C9: when the successful responses of [sendEach] carry their message
    id, every result of [sendToDevice], of [sendToTopic] and in the list
    of [sendToMultipleDevices] has a [messageId] exactly when [success] is
    true and an [error] exactly when it is false. *)
Theorem results_populate_exactly_one {World} (svc : FCMService World)
    (payload : NotificationPayload) (e : Env World) :
  sendEach_identifies (messaging svc) →
  (∀ tok, exactly_one (sendToDevice svc tok payload e).1) ∧
  (∀ top, exactly_one (sendToTopic svc top payload e).1) ∧
  (∀ tokens,
     Forall exactly_one (results (sendToMultipleDevices svc tokens payload e).1)).
Proof.
  intros Hid. split_and!.
  - intros tok. unfold sendToDevice, bind, messaging_send. simpl.
    destruct (send _ _ _ _) as [[err|id] w]; simpl.
    + apply exactly_one_failed.
    + by apply exactly_one_sent.
  - intros top. unfold sendToTopic, bind, messaging_send. simpl.
    destruct (send _ _ _ _) as [[err|id] w]; simpl.
    + apply exactly_one_failed.
    + by apply exactly_one_sent.
  - intros tokens.
    destruct (sendToMultipleDevices_run svc payload tokens e)
      as (outs & Hans & Hrs & _).
    cbv zeta in Hrs. rewrite Hrs.
    apply (Forall_merged_results svc payload); [|done].
    intros c r. by apply batch_results_exactly_one.
Qed.

Lemma results_populate_exactly_one_witness :
  sendEach_identifies (messaging scripted_service) ∧
  Forall exactly_one
    (results (sendToMultipleDevices scripted_service ["a"; ""; "b"] promotion fresh).1).
Proof.
  split; [exact scripted_identifies|].
  destruct (results_populate_exactly_one scripted_service promotion fresh
              scripted_identifies) as (_ & _ & Hmany).
  exact (Hmany ["a"; ""; "b"]).
Defined.

(** ** What the client's contract is needed for *)

(** The service copies what [sendEach] answers: with a client that drops
    its responses the results come out short. *)
Remark silent_client_shortens_results :
  let svc := {| messaging := silent; dryRun := false |} in
  ¬ sendEach_aligned silent ∧
  results (sendToMultipleDevices svc ["a"; "b"] promotion
             {| world := (); trace := [] |}).1 = [].
Proof.
  split; [|by vm_compute].
  intros H. specialize (H [validation_message "a"] false () [] () eq_refl).
  discriminate H.
Qed.

(** Likewise a success reported without a message id is passed on as a
    result with neither [messageId] nor [error]. *)
Remark anonymous_client_leaves_both_empty :
  let svc := {| messaging := anonymous; dryRun := false |} in
  ¬ sendEach_identifies anonymous ∧
  results (sendToMultipleDevices svc ["a"] promotion
             {| world := (); trace := [] |}).1
    = [{| success := true; messageId := None; error := None |}].
Proof.
  split; [|by vm_compute].
  intros H.
  destruct (H [validation_message "a"] false () _ () _ eq_refl
              ltac:(apply list_elem_of_here) eq_refl) as [id Hid].
  discriminate Hid.
Qed.

(* ====================================================================== *)
(** * Further properties of the sources *)

(** ** The matcher agrees with the words a pattern denotes *)

Lemma matches_nil_nullable r w :
  regex.matches r w → w = [] → regex.nullable r = true.
Proof.
  induction 1 as [| | r1 r2 w1 w2 _ IH1 _ IH2 | r1 r2 w _ IH | r1 r2 w _ IH | |];
    intros Hw; simpl; try done.
  - apply app_eq_nil in Hw as [-> ->]. by rewrite IH1, IH2.
  - by rewrite IH.
  - rewrite IH by done. apply orb_true_r.
Qed.

Lemma nullable_matches_nil r : regex.nullable r = true → regex.matches r [].
Proof.
  induction r as [| | p | r1 IH1 r2 IH2 | r1 IH1 r2 IH2 | r IH]; simpl; intros H;
    try done.
  - constructor.
  - apply andb_true_iff in H as [H1 H2].
    apply (regex.m_seq _ _ [] []); auto.
  - apply orb_true_iff in H as [H|H];
      [apply regex.m_alt_l|apply regex.m_alt_r]; auto.
  - constructor.
Qed.

Lemma matches_star_cons r a w :
  regex.matches (regex.star r) (a :: w) →
  ∃ w1 w2, w = w1 ++ w2 ∧ regex.matches r (a :: w1) ∧ regex.matches (regex.star r) w2.
Proof.
  intros H. remember (regex.star r) as r' eqn:Hr. remember (a :: w) as w' eqn:Hw.
  revert w Hw.
  induction H as [| | | | | |r0 w1 w2 H1 _ H2 IH2]; intros v Hv; try discriminate.
  injection Hr as ->. destruct w1 as [|b w1]; simpl in Hv.
  - by apply IH2.
  - injection Hv as -> <-. by exists w1, w2.
Qed.

Lemma matches_deriv a r w :
  regex.matches (regex.deriv a r) w ↔ regex.matches r (a :: w).
Proof.
  revert w. induction r as [| | p | r1 IH1 r2 IH2 | r1 IH1 r2 IH2 | r IH];
    intros w; simpl.
  - split; inversion 1.
  - split; inversion 1.
  - destruct (p a) eqn:Hp; split; inversion 1; subst.
    + by constructor.
    + constructor.
    + congruence.
  - assert (regex.matches (regex.seq (regex.deriv a r1) r2) w →
            regex.matches (regex.seq r1 r2) (a :: w)) as Hhead.
    { inversion 1 as [| |? ? w1 w2 Hw1 Hw2| | | |]; subst.
      apply IH1 in Hw1. by apply (regex.m_seq _ _ (a :: w1) w2). }
    assert (regex.matches (regex.seq r1 r2) (a :: w) →
            (regex.matches (regex.seq (regex.deriv a r1) r2) w) ∨
            (regex.nullable r1 = true ∧ regex.matches (regex.deriv a r2) w))
      as Hsplit.
    { inversion 1 as [| |? ? w1 w2 Hw1 Hw2 Hr Heq| | | |]; subst.
      destruct w1 as [|b w1]; simpl in Heq.
      - right. subst w2. split; [by eapply matches_nil_nullable|by apply IH2].
      - injection Heq as -> <-. left.
        apply regex.m_seq; [by apply IH1|done]. }
    destruct (regex.nullable r1) eqn:Hn; split.
    + inversion 1; subst; [by apply Hhead|].
      apply (regex.m_seq _ _ [] (a :: w)); [by apply nullable_matches_nil|by apply IH2].
    + intros H. destruct (Hsplit H) as [H'|[_ H']];
        [by apply regex.m_alt_l|by apply regex.m_alt_r].
    + apply Hhead.
    + intros H. by destruct (Hsplit H) as [H'|[? _]].
  - split.
    + inversion 1; subst;
        [apply regex.m_alt_l; by apply IH1|apply regex.m_alt_r; by apply IH2].
    + inversion 1; subst;
        [apply regex.m_alt_l; by apply IH1|apply regex.m_alt_r; by apply IH2].
  - split.
    + inversion 1 as [| |? ? w1 w2 Hw1 Hw2| | | |]; subst.
      apply IH in Hw1. by apply (regex.m_star_app _ (a :: w1) w2).
    + intros H. apply matches_star_cons in H as (w1 & w2 & -> & Hw1 & Hw2).
      apply regex.m_seq; [by apply IH|done].
Qed.

Lemma test_chars_matches r w : regex.test_chars r w = true ↔ regex.matches r w.
Proof.
  revert r. induction w as [|a w IH]; intros r; simpl.
  - split; [apply nullable_matches_nil|]. intros H. by eapply matches_nil_nullable.
  - by rewrite IH, matches_deriv.
Qed.

Lemma test_matches r s :
  regex.test r s = true ↔ regex.matches r (String.list_ascii_of_string s).
Proof. apply test_chars_matches. Qed.

Lemma matches_eps_iff w : regex.matches regex.eps w ↔ w = [].
Proof. split; [by inversion 1|intros ->; constructor]. Qed.

Lemma matches_class_iff p w :
  regex.matches (regex.class p) w ↔ ∃ a, w = [a] ∧ p a = true.
Proof.
  split; [inversion 1; eauto|]. intros (a & -> & Ha). by constructor.
Qed.

Lemma matches_seq_iff r1 r2 w :
  regex.matches (regex.seq r1 r2) w ↔
  ∃ w1 w2, w = w1 ++ w2 ∧ regex.matches r1 w1 ∧ regex.matches r2 w2.
Proof.
  split; [inversion 1; eauto|]. intros (w1 & w2 & -> & H1 & H2). by constructor.
Qed.

Lemma matches_opt_iff r w :
  regex.matches (regex.opt r) w ↔ w = [] ∨ regex.matches r w.
Proof.
  unfold regex.opt. split.
  - inversion 1; subst; [by right|left; by apply matches_eps_iff].
  - intros [->|H]; [apply regex.m_alt_r; constructor|by apply regex.m_alt_l].
Qed.

Lemma matches_star_class p w :
  regex.matches (regex.star (regex.class p)) w ↔ Forall (λ a, p a = true) w.
Proof.
  split.
  - intros H. remember (regex.star (regex.class p)) as r eqn:Hr.
    induction H as [| | | | | |r0 w1 w2 H1 _ H2 IH2]; try discriminate; [constructor|].
    injection Hr as ->. apply matches_class_iff in H1 as (a & -> & Ha).
    constructor; [done|by apply IH2].
  - induction 1 as [|a w Ha _ IH]; [constructor|].
    apply (regex.m_star_app _ [a] w); [by constructor|done].
Qed.

Lemma matches_plus_class p w :
  regex.matches (regex.plus (regex.class p)) w ↔ w ≠ [] ∧ Forall (λ a, p a = true) w.
Proof.
  unfold regex.plus. rewrite matches_seq_iff. split.
  - intros (w1 & w2 & -> & H1 & H2).
    apply matches_class_iff in H1 as (a & -> & Ha).
    apply matches_star_class in H2. split; [done|by constructor].
  - intros [Hne Hall]. destruct Hall as [|a w Ha Hall]; [done|].
    exists [a], w. split_and!; [done|by constructor|by apply matches_star_class].
Qed.

Lemma one_true c a : regex.one c a = true ↔ a = c.
Proof. unfold regex.one. apply Ascii.eqb_eq. Qed.

(** ** Strings as lists of characters *)

Lemma length_list_ascii s :
  length (String.list_ascii_of_string s) = String.length s.
Proof. induction s as [|a s IH]; simpl; [done|by rewrite IH]. Qed.

Lemma list_ascii_app s1 s2 :
  String.list_ascii_of_string (s1 +:+ s2)
    = String.list_ascii_of_string s1 ++ String.list_ascii_of_string s2.
Proof. induction s1 as [|a s1 IH]; simpl; [done|by rewrite IH]. Qed.

Lemma string_of_list_ascii_app l1 l2 :
  String.string_of_list_ascii (l1 ++ l2)
    = String.string_of_list_ascii l1 +:+ String.string_of_list_ascii l2.
Proof. induction l1 as [|a l1 IH]; simpl; [done|by rewrite IH]. Qed.

Lemma list_ascii_nil s : String.list_ascii_of_string s = [] ↔ s = "".
Proof. by destruct s. Qed.

Lemma string_all_of_list p l :
  string_all p (String.string_of_list_ascii l) ↔ Forall (λ a, p a = true) l.
Proof. unfold string_all. by rewrite String.list_ascii_of_string_of_list_ascii. Qed.

Lemma numeral_of_list l :
  numeral (String.string_of_list_ascii l) ↔ l ≠ [] ∧ Forall (λ a, digit a = true) l.
Proof.
  unfold numeral. rewrite string_all_of_list, <- list_ascii_nil.
  by rewrite String.list_ascii_of_string_of_list_ascii.
Qed.

Lemma numeral_chars s :
  numeral s ↔
  String.list_ascii_of_string s ≠ [] ∧
  Forall (λ a, digit a = true) (String.list_ascii_of_string s).
Proof. unfold numeral, string_all. by rewrite list_ascii_nil. Qed.

(** ** The validators *)

Lemma matches_versionRegex w :
  regex.matches versionRegex w ↔
  ∃ major minor patch pre,
    w = major ++ "."%char :: minor ++ patch ++ pre ∧
    (major ≠ [] ∧ Forall (λ a, digit a = true) major) ∧
    (minor ≠ [] ∧ Forall (λ a, digit a = true) minor) ∧
    (patch = [] ∨
     ∃ p, patch = "."%char :: p ∧ p ≠ [] ∧ Forall (λ a, digit a = true) p) ∧
    (pre = [] ∨
     ∃ q, pre = "-"%char :: q ∧ q ≠ [] ∧ Forall (λ a, prerelease_char a = true) q).
Proof.
  unfold versionRegex. split.
  - intros H.
    apply matches_seq_iff in H as (major & w1 & -> & Hmajor & H).
    apply matches_seq_iff in H as (dot & w2 & -> & Hdot & H).
    apply matches_seq_iff in H as (minor & w3 & -> & Hminor & H).
    apply matches_seq_iff in H as (patch & pre & -> & Hpatch & Hpre).
    apply matches_class_iff in Hdot as (a & -> & ->%one_true).
    apply matches_plus_class in Hmajor, Hminor.
    exists major, minor, patch, pre.
    split; [done|]. split; [done|]. split; [done|]. split.
    + apply matches_opt_iff in Hpatch as [->|Hpatch]; [by left|right].
      apply matches_seq_iff in Hpatch as (d & p & -> & Hd & Hp).
      apply matches_class_iff in Hd as (a & -> & ->%one_true).
      apply matches_plus_class in Hp. by exists p.
    + apply matches_opt_iff in Hpre as [->|Hpre]; [by left|right].
      apply matches_seq_iff in Hpre as (d & q & -> & Hd & Hq).
      apply matches_class_iff in Hd as (a & -> & ->%one_true).
      apply matches_plus_class in Hq. by exists q.
  - intros (major & minor & patch & pre & -> & Hmajor & Hminor & Hpatch & Hpre).
    apply regex.m_seq; [by apply matches_plus_class|].
    apply (regex.m_seq _ _ ["."%char]); [by constructor|].
    apply regex.m_seq; [by apply matches_plus_class|].
    apply regex.m_seq; apply matches_opt_iff.
    + destruct Hpatch as [->|(p & -> & Hp)]; [by left|right].
      apply (regex.m_seq _ _ ["."%char]); [by constructor|by apply matches_plus_class].
    + destruct Hpre as [->|(q & -> & Hq)]; [by left|right].
      apply (regex.m_seq _ _ ["-"%char]); [by constructor|by apply matches_plus_class].
Qed.

(** X1: [validateFCMToken] accepts exactly the strings of 140 to 200
    characters all taken from letters, digits, ['_'], [':'] and ['-']. *)
Theorem validateFCMToken_accepts (tok : string) :
  validateFCMToken tok = true ↔
  140 ≤ String.length tok ≤ 200 ∧ string_all token_char tok.
Proof.
  unfold validateFCMToken, js.truthy, string_all.
  destruct (decide (tok = "")) as [->|Hne]; simpl.
  { split; [done|]. intros [[? _] _]. lia. }
  destruct (String.length tok <? 140) eqn:Hlo; simpl.
  { apply Nat.ltb_lt in Hlo. split; [done|]. intros [[? _] _]. lia. }
  apply Nat.ltb_ge in Hlo.
  destruct (200 <? String.length tok) eqn:Hhi.
  { apply Nat.ltb_lt in Hhi. split; [done|]. intros [[_ ?] _]. lia. }
  apply Nat.ltb_ge in Hhi.
  rewrite test_matches. unfold validTokenRegex. rewrite matches_plus_class.
  rewrite list_ascii_nil. split; intros [? ?]; split; try done; lia.
Qed.

(** X2: [validateAppVersion] accepts exactly the strings of the form
    [major.minor], optionally followed by [.patch], optionally followed by
    ['-'] and a non-empty pre-release tag of letters, digits, ['.'] and
    ['-'], where [major], [minor] and [patch] are non-empty runs of
    digits. *)
Theorem validateAppVersion_accepts (version : string) :
  validateAppVersion version = true ↔
  ∃ major minor patch pre : string,
    version = major +:+ "." +:+ minor +:+ patch +:+ pre ∧
    numeral major ∧ numeral minor ∧
    (patch = "" ∨ ∃ p, patch = "." +:+ p ∧ numeral p) ∧
    (pre = "" ∨ ∃ q, pre = "-" +:+ q ∧ q ≠ "" ∧ string_all prerelease_char q).
Proof.
  unfold validateAppVersion, js.truthy. split.
  - destruct (decide (version = "")) as [->|Hne]; simpl; [done|].
    rewrite test_matches, matches_versionRegex.
    intros (major & minor & patch & pre & Hv & Hmajor & Hminor & Hpatch & Hpre).
    exists (String.string_of_list_ascii major), (String.string_of_list_ascii minor),
      (String.string_of_list_ascii patch), (String.string_of_list_ascii pre).
    split; [|split; [|split; [|split]]].
    + rewrite <- (String.string_of_list_ascii_of_string version), Hv.
      rewrite string_of_list_ascii_app. simpl. f_equal. f_equal.
      by rewrite !string_of_list_ascii_app.
    + by apply numeral_of_list.
    + by apply numeral_of_list.
    + destruct Hpatch as [->|(p & -> & Hp)]; [by left|right].
      exists (String.string_of_list_ascii p). split; [done|by apply numeral_of_list].
    + destruct Hpre as [->|(q & -> & Hq & Hall)]; [by left|right].
      exists (String.string_of_list_ascii q). split; [done|split].
      * by destruct q.
      * by apply string_all_of_list.
  - intros (major & minor & patch & pre & -> & Hmajor & Hminor & Hpatch & Hpre).
    assert (major ≠ "") as Hne by apply Hmajor.
    destruct (decide (major +:+ "." +:+ minor +:+ patch +:+ pre = "")) as [He|_].
    { destruct major; [done|discriminate He]. }
    simpl. rewrite test_matches, matches_versionRegex.
    exists (String.list_ascii_of_string major), (String.list_ascii_of_string minor),
      (String.list_ascii_of_string patch), (String.list_ascii_of_string pre).
    split; [|split; [|split; [|split]]].
    + rewrite list_ascii_app. simpl. by rewrite !list_ascii_app.
    + by apply numeral_chars.
    + by apply numeral_chars.
    + destruct Hpatch as [->|(p & -> & Hp)]; [by left|right].
      exists (String.list_ascii_of_string p). split; [done|by apply numeral_chars].
    + destruct Hpre as [->|(q & -> & Hq & Hall)]; [by left|right].
      exists (String.list_ascii_of_string q). split; [done|split; [|done]].
      by rewrite list_ascii_nil.
Qed.

(** X3: a token that [validateFCMToken] accepts is never mistaken for a
    missing one: when [sendToDevice] fails for it, the error names it. *)
Theorem valid_token_always_named {World} (svc : FCMService World) (tok : string)
    (payload : NotificationPayload) (e : Env World) :
  validateFCMToken tok = true →
  success (sendToDevice svc tok payload e).1 = false →
  error_token (sendToDevice svc tok payload e).1 = Some tok.
Proof.
  intros Hvalid. apply validateFCMToken_accepts in Hvalid as [[Hlen _] _].
  assert (tok ≠ "") as Hne by (intros ->; simpl in Hlen; lia).
  unfold sendToDevice, bind, messaging_send. simpl.
  destruct (send _ _ _ _) as [[err|id] w]; simpl; [|done].
  intros _. unfold error_token. simpl. unfold js.truthy.
  by rewrite decide_False.
Qed.

Lemma valid_token_always_named_witness :
  validateFCMToken sample_token = true ∧
  success (sendToDevice unreachable_service sample_token promotion nowhere).1 = false ∧
  error_token (sendToDevice unreachable_service sample_token promotion nowhere).1
    = Some sample_token.
Proof.
  split; [by vm_compute|]. split; [by vm_compute|].
  apply (valid_token_always_named unreachable_service sample_token promotion nowhere);
    by vm_compute.
Defined.

(** X4: every version [validateAppVersion] accepts begins with a digit
    and is written with letters, digits, ['.'] and ['-'] only. *)
Theorem validateAppVersion_alphabet (version : string) :
  validateAppVersion version = true →
  (∃ a rest, version = String a rest ∧ digit a = true) ∧
  string_all prerelease_char version.
Proof.
  intros H. apply validateAppVersion_accepts in H
    as (major & minor & patch & pre & -> & Hmajor & Hminor & Hpatch & Hpre).
  assert (∀ a, digit a = true → prerelease_char a = true) as Hdigit.
  { intros a Ha. unfold prerelease_char, regex.any_of. simpl.
    unfold digit in Ha. rewrite Ha. by rewrite !orb_true_r. }
  assert (∀ s, numeral s → string_all prerelease_char s) as Hnum.
  { intros s [_ Hs]. unfold string_all in *. eapply Forall_impl; [done|].
    intros a. apply Hdigit. }
  split.
  - destruct Hmajor as [Hne Hall]. destruct major as [|a major]; [done|].
    exists a, (major +:+ "." +:+ minor +:+ patch +:+ pre). split; [done|].
    unfold string_all in Hall. simpl in Hall. by inversion Hall.
  - unfold string_all. rewrite !list_ascii_app, !Forall_app.
    split; [by apply Hnum|]. split; [by repeat constructor|].
    split; [by apply Hnum|]. split.
    + destruct Hpatch as [->|(p & -> & Hp)]; [constructor|].
      rewrite list_ascii_app. apply Forall_app.
      split; [by repeat constructor|by apply Hnum].
    + destruct Hpre as [->|(q & -> & _ & Hq)]; [constructor|].
      rewrite list_ascii_app. apply Forall_app.
      split; [by repeat constructor|done].
Qed.

Lemma validateAppVersion_alphabet_witness :
  validateAppVersion "1.0.0-beta" = true ∧
  string_all prerelease_char "1.0.0-beta".
Proof.
  split; [by vm_compute|].
  apply (validateAppVersion_alphabet "1.0.0-beta"). by vm_compute.
Defined.

(** ** The orchestrator, whatever the client does *)

Lemma count_success_split (l : list SendResult) :
  length (filter (λ r, success r = true) l) + length (filter (λ r, success r = false) l)
    = length l.
Proof.
  induction l as [|r l IH]; [done|].
  rewrite !filter_cons. repeat case_decide; simpl; try lia.
  all: destruct (success r); congruence.
Qed.

Lemma filter_success_none (l : list SendResult) :
  Forall (λ r, success r = false) l → filter (λ r, success r = true) l = [].
Proof.
  induction 1 as [|r l Hr _ IH]; [done|].
  rewrite filter_cons. case_decide; [congruence|done].
Qed.

(** X5: whatever the client answers, the two counters of a [BatchResult]
    describe its [results]: [successCount] is the number of results with
    [success = true], [failureCount] the number with [success = false],
    and they add up to [results.length]. *)
Theorem batch_counts_match_results {World} (svc : FCMService World)
    (tokens : list string) (payload : NotificationPayload) (e : Env World) :
  let br := (sendToMultipleDevices svc tokens payload e).1 in
  successCount br = Z.of_nat (length (filter (λ r, success r = true) (results br))) ∧
  failureCount br = Z.of_nat (length (filter (λ r, success r = false) (results br))) ∧
  (successCount br + failureCount br)%Z = Z.of_nat (length (results br)).
Proof.
  destruct (sendToMultipleDevices_run svc payload tokens e)
    as (outs & _ & _ & Hs & Hf & _).
  cbv zeta in *.
  pose proof (count_success_split
                (results (sendToMultipleDevices svc tokens payload e).1)).
  split_and!; [done|lia|lia].
Qed.

Lemma batch_events_messages {World} (svc : FCMService World)
    (payload : NotificationPayload) cs outs :
  length cs = length outs →
  event_messages <$> zip_with (batch_event svc payload) cs outs
    = batch_messages payload <$> cs.
Proof.
  revert outs. induction cs as [|c cs IH]; intros [|r outs] Hlen; try done.
  simpl. f_equal. apply IH. by injection Hlen.
Qed.

Lemma concat_batch_messages (payload : NotificationPayload) (cs : list (list string)) :
  concat (batch_messages payload <$> cs)
    = (λ tok, buildMessage tok payload) <$> concat cs.
Proof.
  induction cs as [|c cs IH]; [done|].
  rewrite fmap_cons, !concat_cons, IH, fmap_app. done.
Qed.

(** X6: whatever the client answers, [sendToMultipleDevices] calls only
    [sendEach], [ceil(length / 500)] times, each time with the service's
    dry-run flag and between 1 and 500 messages, every call but the last
    with exactly 500; taken in order, the messages submitted are the ones
    built for the tokens, each token once and in the order given. *)
Theorem tokens_submitted_once_in_order {World} (svc : FCMService World)
    (tokens : list string) (payload : NotificationPayload) (e : Env World) :
  let e' := (sendToMultipleDevices svc tokens payload e).2 in
  ∃ evs,
    trace e' = trace e ++ evs ∧
    length evs = chunk_count (length tokens) ∧
    Forall (λ ev, ∃ msgs r, ev = SendEach msgs (dryRun svc) r ∧
                            0 < length msgs ≤ 500) evs ∧
    (∀ k ev, evs !! k = Some ev → S k < length evs →
             length (event_messages ev) = 500) ∧
    concat (event_messages <$> evs) = (λ tok, buildMessage tok payload) <$> tokens.
Proof.
  destruct (sendToMultipleDevices_run svc payload tokens e)
    as (outs & Hans & _ & _ & _ & Htr).
  cbv zeta in *.
  pose proof (Forall2_length _ _ _ Hans) as Hlen.
  assert (length (zip_with (batch_event svc payload) (chunks tokens) outs)
          = chunk_count (length tokens)) as Hevs.
  { by rewrite length_zip_with_l_eq, length_chunks. }
  eexists. split; [exact Htr|]. split; [done|]. split; [|split].
  - apply Forall_forall. intros ev Hev.
    apply elem_of_lookup_zip_with in Hev as (k & c & r & -> & Hc & _).
    exists (batch_messages payload c), r. split; [done|].
    unfold batch_messages. rewrite length_fmap.
    pose proof (chunks_bounded tokens) as Hb. rewrite Forall_lookup in Hb.
    apply Hb in Hc. by unfold batchSize in Hc.
  - intros k ev Hk HSk. rewrite Hevs in HSk.
    apply lookup_zip_with_Some in Hk as (c & r & -> & Hc & _).
    rewrite lookup_chunks in Hc by lia. injection Hc as <-.
    simpl. unfold batch_messages. rewrite length_fmap, length_chunk.
    apply chunk_count_lt in HSk. unfold batchSize in *. lia.
  - rewrite batch_events_messages by done.
    by rewrite concat_batch_messages, concat_chunks.
Qed.

(** X7: when the client cannot be reached (every [sendEach] throws),
    [sendToMultipleDevices] still answers for every token: one failed
    result per token, in order, each naming its token, with
    [successCount = 0] and [failureCount] the number of tokens. *)
Theorem unreachable_client_fails_every_token {World} (svc : FCMService World)
    (tokens : list string) (payload : NotificationPayload) (e : Env World) :
  (∀ msgs dry w, ∃ err, (sendEach (messaging svc) msgs dry w).1 = inl err) →
  let br := (sendToMultipleDevices svc tokens payload e).1 in
  length (results br) = length tokens ∧
  successCount br = 0%Z ∧
  failureCount br = Z.of_nat (length tokens) ∧
  ∀ i tok, tokens !! i = Some tok →
    ∃ res, results br !! i = Some res ∧ success res = false ∧
           error_token res = js.spread_if (Some tok).
Proof.
  intros Hdown.
  assert (sendEach_aligned (messaging svc)) as Hal.
  { intros msgs dry w responses w' H.
    destruct (Hdown msgs dry w) as [err Herr]. by rewrite H in Herr. }
  destruct (sendToMultipleDevices_run svc payload tokens e)
    as (outs & Hans & Hres & Hs & Hf & _).
  cbv zeta in *.
  assert (length (results (sendToMultipleDevices svc tokens payload e).1)
          = length tokens) as Hlen.
  { rewrite Hres. by apply (merged_results_length svc payload). }
  assert (∀ i tok, tokens !! i = Some tok →
            ∃ res, results (sendToMultipleDevices svc tokens payload e).1 !! i = Some res ∧
                   success res = false ∧ error_token res = js.spread_if (Some tok))
    as Hpos.
  { intros i tok Hi.
    destruct (merged_results_lookup svc payload tokens outs i tok Hal Hans Hi)
      as (r & _ & (w & w' & Hr) & _ & Hlook).
    destruct (Hdown (batch_messages payload (chunk tokens (i / batchSize)))
                (dryRun svc) w) as [err Herr].
    rewrite Hr in Herr. simpl in Herr. subst r.
    eexists. split; [by rewrite Hres, Hlook|]. done. }
  assert (Forall (λ r, success r = false)
            (results (sendToMultipleDevices svc tokens payload e).1)) as Hall.
  { apply Forall_lookup. intros i res Hi.
    assert (i < length tokens) as Hlt by (rewrite <- Hlen; by eapply lookup_lt_Some).
    destruct (lookup_lt_is_Some_2 tokens i Hlt) as [tok Htok].
    destruct (Hpos i tok Htok) as (res' & Hres' & Hfail & _). congruence. }
  apply filter_success_none in Hall. rewrite Hall in Hs. simpl in Hs.
  split_and!; [done|done|lia|done].
Qed.

Lemma unreachable_client_fails_every_token_witness :
  (∀ msgs dry w, ∃ err,
     (sendEach (messaging unreachable_service) msgs dry w).1 = inl err) ∧
  let br := (sendToMultipleDevices unreachable_service ["a"; "b"; "c"] promotion
               nowhere).1 in
  successCount br = 0%Z ∧ failureCount br = 3%Z.
Proof.
  assert (∀ msgs dry w, ∃ err,
            (sendEach (messaging unreachable_service) msgs dry w).1 = inl err) as Hdown
    by (intros; by eexists).
  split; [exact Hdown|].
  destruct (unreachable_client_fails_every_token unreachable_service ["a"; "b"; "c"]
              promotion nowhere Hdown) as (_ & Hs & Hf & _).
  split; [exact Hs|exact Hf].
Defined.

Lemma sendLoop_single {World} (svc : FCMService World) (tokens : list string)
    (payload : NotificationPayload) (e : Env World) :
  0 < length tokens ≤ 500 →
  sendLoop svc tokens payload 0 [] e = sendBatch svc tokens payload e.
Proof.
  intros [Hpos Hle]. rewrite sendLoop_step, decide_True by lia.
  assert (js.slice 0 (0 + batchSize) tokens = tokens) as ->.
  { unfold js.slice, batchSize. simpl. by apply take_ge. }
  unfold bind. destruct (sendBatch svc tokens payload e) as [rs e1].
  rewrite sendLoop_step, decide_False by (unfold batchSize; simpl; lia).
  done.
Qed.

(** X8: a list of 1 to 500 tokens goes out in a single [sendEach] call
    holding the messages of all of them, and the results are what
    [sendBatch] makes of that one answer. *)
Theorem single_batch_goes_in_one_call {World} (svc : FCMService World)
    (tokens : list string) (payload : NotificationPayload) (e : Env World) :
  0 < length tokens ≤ 500 →
  let br := (sendToMultipleDevices svc tokens payload e).1 in
  let e' := (sendToMultipleDevices svc tokens payload e).2 in
  let msgs := (λ tok, buildMessage tok payload) <$> tokens in
  let answer := sendEach (messaging svc) msgs (dryRun svc) (world e) in
  trace e' = trace e ++ [SendEach msgs (dryRun svc) answer.1] ∧
  world e' = answer.2 ∧
  results br = batch_results tokens answer.1.
Proof.
  intros [Hpos Hle]. unfold sendToMultipleDevices.
  rewrite decide_False by lia.
  unfold bind. rewrite sendLoop_single by done.
  unfold sendBatch, bind, messaging_sendEach.
  by destruct (sendEach _ _ _ _) as [r w].
Qed.

Lemma single_batch_goes_in_one_call_witness :
  0 < length ["a"; ""; "b"] ≤ 500 ∧
  length (trace (sendToMultipleDevices scripted_service ["a"; ""; "b"] promotion
                   fresh).2) = 1.
Proof.
  split; [simpl; lia|].
  destruct (single_batch_goes_in_one_call scripted_service ["a"; ""; "b"] promotion fresh)
    as (Htr & _); [simpl; lia|].
  by rewrite Htr.
Defined.

(** X9: no operation lets an unclassified failure out: whatever the client
    throws or reports, every error in a result of [sendToDevice],
    [sendToTopic] or [sendToMultipleDevices] has a non-empty code and a
    non-empty message. *)
Theorem failures_always_classified {World} (svc : FCMService World)
    (payload : NotificationPayload) (e : Env World) :
  let classified (res : SendResult) :=
    ∀ ne, error res = Some ne → code ne ≠ "" ∧ message ne ≠ "" in
  (∀ tok, classified (sendToDevice svc tok payload e).1) ∧
  (∀ top, classified (sendToTopic svc top payload e).1) ∧
  (∀ tokens,
     Forall classified (results (sendToMultipleDevices svc tokens payload e).1)).
Proof.
  assert (∀ err tok ne, Some (parseError err tok) = Some ne →
                        code ne ≠ "" ∧ message ne ≠ "") as Hparse.
  { intros err tok ne [= <-]. unfold parseError. simpl.
    split; by apply or_else_nonempty. }
  intros classified. split_and!.
  - intros tok. unfold sendToDevice, bind, messaging_send. simpl.
    destruct (send _ _ _ _) as [[err|id] w]; simpl; intros ne; [apply Hparse|done].
  - intros top. unfold sendToTopic, bind, messaging_send. simpl.
    destruct (send _ _ _ _) as [[err|id] w]; simpl; intros ne; [apply Hparse|done].
  - intros tokens.
    destruct (sendToMultipleDevices_run svc payload tokens e)
      as (outs & Hans & Hrs & _).
    cbv zeta in Hrs. rewrite Hrs.
    apply (Forall_merged_results svc payload); [|done].
    intros c r _. apply Forall_forall. intros res Hin.
    destruct r as [err|responses]; simpl in Hin.
    + apply list_elem_of_fmap in Hin as (tok & -> & _). intros ne. apply Hparse.
    + apply elem_of_lookup_imap in Hin as (i & resp & -> & _).
      unfold of_response. destruct (admin.success resp); intros ne; [done|apply Hparse].
Qed.

Lemma new_events_app {World} (e e' : Env World) evs :
  trace e' = trace e ++ evs → new_events e e' = evs.
Proof. intros H. unfold new_events. rewrite H. apply drop_app_length. Qed.

Lemma batch_events_dry {World} (svc : FCMService World)
    (payload : NotificationPayload) cs outs :
  length cs = length outs →
  event_dry <$> zip_with (batch_event svc payload) cs outs
    = replicate (length cs) (dryRun svc).
Proof.
  revert outs. induction cs as [|c cs IH]; intros [|r outs] Hlen; try done.
  simpl. f_equal. apply IH. by injection Hlen.
Qed.

(** X10: a service built by the constructor passes [options.dryRun] (or
    [false] when the option is not given) to every call its send
    operations make: one [send] for [sendToDevice] and for [sendToTopic],
    [ceil(length / 500)] calls of [sendEach] for [sendToMultipleDevices];
    the single call of [validateToken] is a dry run regardless. *)
Theorem calls_carry_configured_flag {World} (options : FCMServiceOptions World)
    (payload : NotificationPayload) (e : Env World) :
  let svc := new_FCMService options in
  let flag := match options_dryRun options with Some b => b | None => false end in
  (∀ tok, event_dry <$> new_events e (sendToDevice svc tok payload e).2 = [flag]) ∧
  (∀ top, event_dry <$> new_events e (sendToTopic svc top payload e).2 = [flag]) ∧
  (∀ tokens,
     event_dry <$> new_events e (sendToMultipleDevices svc tokens payload e).2
       = replicate (chunk_count (length tokens)) flag) ∧
  (∀ tok, event_dry <$> new_events e (validateToken svc tok e).2 = [true]).
Proof.
  intros svc flag.
  assert (dryRun svc = flag) as Hflag by (subst svc flag; by destruct options as [? []]).
  split_and!.
  - intros tok. unfold sendToDevice, bind, messaging_send. simpl.
    destruct (send _ _ _ _) as [[err|id] w]; simpl;
      by erewrite new_events_app; [|done].
  - intros top. unfold sendToTopic, bind, messaging_send. simpl.
    destruct (send _ _ _ _) as [[err|id] w]; simpl;
      by erewrite new_events_app; [|done].
  - intros tokens.
    destruct (sendToMultipleDevices_run svc payload tokens e)
      as (outs & Hans & _ & _ & _ & Htr).
    cbv zeta in Htr. erewrite new_events_app by exact Htr.
    rewrite batch_events_dry by (by eapply Forall2_length).
    by rewrite length_chunks, Hflag.
  - intros tok. unfold validateToken, bind, messaging_send. simpl.
    destruct (send _ _ _ _) as [[err|id] w]; simpl;
      by erewrite new_events_app; [|done].
Qed.

(** ** The message builders, for any payload *)

(** X11: in every message built, for a device or for a topic, the Android
    sound and the APNs sound are the same non-empty string (['default']
    when the payload has no sound or an empty one); an image URL is never
    the empty string, and the device message repeats it in
    [apns.fcmOptions]; the Android priority is ['high'] exactly when the
    payload's is, and ['normal'] otherwise, also when none is given. *)
Theorem built_messages_sound_image_priority (tok top : string)
    (payload : NotificationPayload) :
  let dm := buildMessage tok payload in
  let tm := buildTopicMessage top payload in
  ∃ android apns tapns,
    admin.android dm = Some android ∧ admin.android tm = Some android ∧
    admin.apns dm = Some apns ∧ admin.apns tm = Some tapns ∧
    admin.aps tapns = admin.aps apns ∧
    admin.sound (admin.android_notification android) = admin.aps_sound (admin.aps apns) ∧
    admin.aps_sound (admin.aps apns) ≠ "" ∧
    (sound payload = None ∨ sound payload = Some "" →
       admin.aps_sound (admin.aps apns) = "default") ∧
    admin.imageUrl (admin.notification dm) ≠ Some "" ∧
    admin.notification tm = admin.notification dm ∧
    admin.fcmOptions apns
      = Some {| admin.fcm_imageUrl := admin.imageUrl (admin.notification dm) |} ∧
    (admin.priority android = admin.high ↔ priority payload = Some high) ∧
    (admin.priority android = admin.normal ↔ priority payload ≠ Some high).
Proof.
  simpl. eexists _, _, _. split_and!; try done.
  - by apply or_else_nonempty.
  - apply or_else_fallback.
  - unfold js.spread_if, js.truthy. destruct (imageUrl payload) as [u|]; [|done].
    destruct (decide (u = "")); congruence.
  - simpl. by destruct (priority payload) as [[]|].
  - simpl. by destruct (priority payload) as [[]|].
Qed.

(** ** The formatters *)

Lemma spread_if_idemp (x : option string) :
  js.spread_if (js.spread_if x) = js.spread_if x.
Proof.
  unfold js.spread_if. destruct x as [s|]; [|done].
  by destruct (js.truthy s) eqn:Hs; [rewrite Hs|].
Qed.

Lemma append_assoc (a b c : string) : (a +:+ b) +:+ c = a +:+ b +:+ c.
Proof.
  induction a as [|x a IH]; [done|].
  change (String x ((a +:+ b) +:+ c) = String x (a +:+ b +:+ c)). by rewrite IH.
Qed.

Lemma append_nil_r (a : string) : a +:+ "" = a.
Proof.
  induction a as [|x a IH]; [done|].
  change (String x (a +:+ "") = String x a). by rewrite IH.
Qed.

(** X12: [formatShipmentNotification] treats an empty tracking number,
    carrier or estimated delivery exactly as a missing one. *)
Theorem formatShipmentNotification_ignores_empty (d : shipment.ShipmentNotification) :
  formatShipmentNotification (shipment_without_empty d) = formatShipmentNotification d.
Proof.
  unfold formatShipmentNotification, shipment_without_empty. simpl.
  by rewrite !spread_if_idemp.
Qed.

(** X13: the data map of a shipment payload holds [type] and [orderId],
    holds [trackingNumber] and [carrier] exactly when they are given and
    non-empty, and holds nothing else (the estimated delivery is never in
    it). *)
Theorem formatShipmentNotification_data (d : shipment.ShipmentNotification) :
  ∃ m : gmap string string,
    data (formatShipmentNotification d) = Some m ∧
    m !! "type" = Some "shipment.created" ∧
    m !! "orderId" = Some (shipment.orderId d) ∧
    m !! "trackingNumber" = js.spread_if (shipment.trackingNumber d) ∧
    m !! "carrier" = js.spread_if (shipment.carrier d) ∧
    ∀ k, k ≠ "type" → k ≠ "orderId" → k ≠ "trackingNumber" → k ≠ "carrier" →
         m !! k = None.
Proof.
  unfold formatShipmentNotification. simpl. eexists. split; [done|].
  destruct (js.spread_if (shipment.trackingNumber d)) as [t|],
           (js.spread_if (shipment.carrier d)) as [c|];
    split_and!; try (intros k ? ? ? ?); by simplify_map_eq.
Qed.

(** X14: without a tracking number the body of a shipment notification
    says nothing about the carrier (it is the shipped line, followed by
    the estimated delivery when there is one), although the data map
    still carries the carrier. *)
Theorem shipment_carrier_needs_tracking (d : shipment.ShipmentNotification) :
  shipment.trackingNumber d = None ∨ shipment.trackingNumber d = Some "" →
  let shipped := "Your order #" +:+ shipment.orderId d +:+ " has been shipped!" in
  body (formatShipmentNotification d) =
    match js.spread_if (shipment.estimatedDelivery d) with
    | Some eta => shipped +:+ " Estimated delivery: " +:+ eta
    | None => shipped
    end ∧
  ∃ m : gmap string string,
    data (formatShipmentNotification d) = Some m ∧
    m !! "carrier" = js.spread_if (shipment.carrier d) ∧
    m !! "trackingNumber" = None.
Proof.
  intros Hno. assert (js.spread_if (shipment.trackingNumber d) = None) as Ht
    by (by destruct Hno as [-> | ->]).
  unfold formatShipmentNotification. simpl. rewrite Ht. split.
  - by destruct (js.spread_if (shipment.carrier d)).
  - eexists. split; [done|].
    destruct (js.spread_if (shipment.carrier d)); by simplify_map_eq.
Qed.

Lemma shipment_carrier_needs_tracking_witness :
  let d := {| shipment.orderId := "123"; shipment.trackingNumber := Some "";
              shipment.carrier := Some "FedEx";
              shipment.estimatedDelivery := None |} in
  (shipment.trackingNumber d = None ∨ shipment.trackingNumber d = Some "") ∧
  body (formatShipmentNotification d) = "Your order #123 has been shipped!".
Proof.
  split; [by right|].
  destruct (shipment_carrier_needs_tracking
              {| shipment.orderId := "123"; shipment.trackingNumber := Some "";
                 shipment.carrier := Some "FedEx";
                 shipment.estimatedDelivery := None |}) as [Hbody _]; [by right|].
  exact Hbody.
Defined.

Lemma mentions_refl (s : string) : mentions s s.
Proof. exists "", "". simpl. by rewrite append_nil_r. Qed.

Lemma mentions_app_l (p s sub : string) : mentions s sub → mentions (p +:+ s) sub.
Proof.
  intros (before & after & ->). exists (p +:+ before), after.
  by rewrite append_assoc.
Qed.

Lemma mentions_app_r (s t sub : string) : mentions s sub → mentions (s +:+ t) sub.
Proof.
  intros (before & after & ->). exists before, (after +:+ t).
  by rewrite !append_assoc.
Qed.

Ltac find_mention :=
  solve [ apply mentions_refl
        | apply mentions_app_r; find_mention
        | apply mentions_app_l; find_mention ].

(** X15: the body of a shipment notification always mentions the order
    id; it mentions the tracking number whenever one is given, and the
    carrier whenever both a carrier and a tracking number are given. *)
Theorem shipment_body_mentions (d : shipment.ShipmentNotification) :
  let b := body (formatShipmentNotification d) in
  mentions b (shipment.orderId d) ∧
  (∀ t, js.spread_if (shipment.trackingNumber d) = Some t → mentions b t) ∧
  (∀ t c, js.spread_if (shipment.trackingNumber d) = Some t →
          js.spread_if (shipment.carrier d) = Some c → mentions b c).
Proof.
  unfold formatShipmentNotification. cbn [body].
  destruct (js.spread_if (shipment.estimatedDelivery d)) as [eta|],
           (js.spread_if (shipment.carrier d)) as [c|],
           (js.spread_if (shipment.trackingNumber d)) as [t|];
    (split; [|split]); try (intros ? [= <-]); try (intros ? ? [= <-] [= <-]);
    try done; find_mention.
Qed.

(** X16: an order with a non-empty [orderNumber] is announced by that
    number, not by its id, and the number is put in the data map; the
    link always leads to the order, and only a placed order is sent with
    high priority. *)
Theorem formatOrderNotification_with_orderNumber (ty : OrderType) (oid n : string) :
  n ≠ "" →
  let p := formatOrderNotification {| type := ty; orderId := oid; orderNumber := Some n |} in
  body p =
    match ty with
    | order_placed => "Your order " +:+ n +:+ " has been confirmed!"
    | order_delivered => "Your order " +:+ n +:+ " has been delivered!"
    | order_canceled => "Your order " +:+ n +:+ " has been canceled."
    end ∧
  (∃ m : gmap string string,
     data p = Some m ∧
     m !! "orderNumber" = Some n ∧
     m !! "orderId" = Some oid ∧
     m !! "type" = Some (OrderType_literal ty)) ∧
  clickAction p = Some ("/orders/" +:+ oid) ∧
  (priority p = Some high ↔ ty = order_placed).
Proof.
  intros Hn. unfold formatOrderNotification, js.or_else, js.spread_if, js.truthy.
  cbn [body data clickAction priority type orderId orderNumber].
  rewrite decide_False by done. split_and!.
  - by destruct ty.
  - eexists. split; [done|]. split_and!; by simplify_map_eq.
  - done.
  - by destruct ty.
Qed.

Lemma formatOrderNotification_with_orderNumber_witness :
  "ORD-2024-001" ≠ "" ∧
  body (formatOrderNotification
          {| type := order_canceled; orderId := "123";
             orderNumber := Some "ORD-2024-001" |})
    = "Your order ORD-2024-001 has been canceled.".
Proof.
  split; [done|].
  destruct (formatOrderNotification_with_orderNumber order_canceled "123" "ORD-2024-001")
    as [Hbody _]; [done|].
  exact Hbody.
Defined.

(** X17: a return notification carries exactly the keys [type],
    [returnId] and [orderId] in its data, links to the return (not to the
    order), is always sent with normal priority, and its body depends on
    the order id and the kind of event only, never on the return id. *)
Theorem formatReturnNotification_payload (d : returns.ReturnNotification) :
  let p := formatReturnNotification d in
  (∃ m : gmap string string,
     data p = Some m ∧
     m !! "type" = Some (returns.ReturnType_literal (returns.type d)) ∧
     m !! "returnId" = Some (returns.returnId d) ∧
     m !! "orderId" = Some (returns.orderId d) ∧
     ∀ k, k ≠ "type" → k ≠ "returnId" → k ≠ "orderId" → m !! k = None) ∧
  clickAction p = Some ("/returns/" +:+ returns.returnId d) ∧
  priority p = Some normal ∧
  mentions (body p) (returns.orderId d) ∧
  ∀ rid,
    body (formatReturnNotification
            {| returns.type := returns.type d; returns.returnId := rid;
               returns.orderId := returns.orderId d |}) = body p.
Proof.
  unfold formatReturnNotification.
  cbn [body data clickAction priority returns.type returns.returnId returns.orderId].
  split_and!; try done.
  - eexists. split; [done|]. split_and!; try (intros k ? ? ?); by simplify_map_eq.
  - destruct (returns.type d); find_mention.
Qed.

(** X18: a payload made by any of the three formatters has a deep link
    and a data map with [type] and [orderId], and no image, sound or
    badge; so the device message built from it plays the ['default']
    sound on both platforms, sets no badge and no image, and routes the
    click to the link. *)
Theorem formatted_payloads_build_plain_messages (p : NotificationPayload)
    (tok : string) :
  formatted p →
  let msg := buildMessage tok p in
  (∃ link, clickAction p = Some link ∧ message_clickAction msg = Some link) ∧
  (∃ m : gmap string string,
     admin.data msg = Some m ∧ is_Some (m !! "type") ∧ is_Some (m !! "orderId")) ∧
  imageUrl p = None ∧ sound p = None ∧ badge p = None ∧
  message_badge msg = None ∧
  admin.imageUrl (admin.notification msg) = None ∧
  ∃ android apns,
    admin.android msg = Some android ∧ admin.apns msg = Some apns ∧
    admin.sound (admin.android_notification android) = "default" ∧
    admin.aps_sound (admin.aps apns) = "default" ∧
    admin.fcmOptions apns = Some {| admin.fcm_imageUrl := None |}.
Proof.
  intros [[d ->]|[[d ->]|[d ->]]].
  - unfold formatShipmentNotification. simpl.
    split_and!; try done; [by eexists| |by eexists _, _].
    eexists. split; [done|].
    destruct (js.spread_if (shipment.trackingNumber d)),
             (js.spread_if (shipment.carrier d));
      split; by simplify_map_eq.
  - unfold formatOrderNotification. simpl.
    split_and!; try done; [by eexists| |by eexists _, _].
    eexists. split; [done|].
    destruct (js.spread_if (orderNumber d)); split; by simplify_map_eq.
  - unfold formatReturnNotification. simpl.
    split_and!; try done; [by eexists| |by eexists _, _].
    eexists. split; [done|]. split; by simplify_map_eq.
Qed.

Lemma formatted_payloads_build_plain_messages_witness :
  let p := formatOrderNotification
             {| type := order_placed; orderId := "123"; orderNumber := None |} in
  formatted p ∧ message_badge (buildMessage sample_token p) = None.
Proof.
  assert (formatted (formatOrderNotification
                       {| type := order_placed; orderId := "123";
                          orderNumber := None |})) as Hf
    by (right; left; by eexists).
  split; [exact Hf|].
  destruct (formatted_payloads_build_plain_messages _ sample_token Hf)
    as (_ & _ & _ & _ & _ & Hbadge & _).
  exact Hbadge.
Defined.
